(** * canvas-image-plotter: a shallow embedding of [src/canvas-image-plotter.js]

    The plotter computes where, and how large, an image clip sits inside a
    canvas.  Its arithmetic is JavaScript [number] arithmetic.  The embedding
    idealises rounding away: a finite number is a real number and the
    operations on finite numbers are exact.  What is kept from IEEE 754 are
    the special values the code can actually produce by dividing by zero or by
    failing to parse an integer: [NaN], [+Infinity] and [-Infinity].  Signed
    zero is not modelled (there is one zero, and a nonzero number divided by
    it is the infinity of the sign of the numerator).

    A second embedding of [ClipAdjustment], the module [Binary64], computes
    with binary64 numbers as the language does; it serves to show where
    rounding makes the code depart from exact arithmetic.

    The sizes and offsets passed to the plotter are numbers; the only
    argument that is taken as an arbitrary value (absent, a number or a
    string) is [zoom_depth], which the code hands to [parseInt].  A string is
    a sequence of 8-bit code units. *)

From Stdlib Require Import Reals Lra Lia ZArith List String Ascii Bool.
From Stdlib Require Import Zfloor.
From Stdlib Require Floats Uint63.
Import ListNotations.

Local Open Scope R_scope.

(** ** JavaScript numbers *)

Inductive num : Type :=
| Fin (r : R)
| PInf
| NInf
| NaN.

Declare Scope js_scope.
Delimit Scope js_scope with js.
Bind Scope js_scope with num.

Definition Rsign_inf (r : R) : num :=
  if Rlt_dec 0 r then PInf else if Rlt_dec r 0 then NInf else NaN.

Definition num_neg (a : num) : num :=
  match a with
  | Fin r => Fin (- r)
  | PInf => NInf
  | NInf => PInf
  | NaN => NaN
  end.

Definition num_add (a b : num) : num :=
  match a, b with
  | NaN, _ | _, NaN => NaN
  | Fin x, Fin y => Fin (x + y)
  | PInf, NInf | NInf, PInf => NaN
  | PInf, _ | _, PInf => PInf
  | NInf, _ | _, NInf => NInf
  end.

Definition num_sub (a b : num) : num := num_add a (num_neg b).

Definition num_mul (a b : num) : num :=
  match a, b with
  | NaN, _ | _, NaN => NaN
  | Fin x, Fin y => Fin (x * y)
  | Fin x, PInf | PInf, Fin x => Rsign_inf x
  | Fin x, NInf | NInf, Fin x => Rsign_inf (- x)
  | PInf, PInf | NInf, NInf => PInf
  | PInf, NInf | NInf, PInf => NInf
  end.

Definition num_div (a b : num) : num :=
  match a, b with
  | NaN, _ | _, NaN => NaN
  | Fin x, Fin y => if Req_dec_T y 0 then Rsign_inf x else Fin (x / y)
  | Fin _, (PInf | NInf) => Fin 0
  | PInf, Fin y => if Rlt_dec y 0 then NInf else PInf
  | NInf, Fin y => if Rlt_dec y 0 then PInf else NInf
  | (PInf | NInf), (PInf | NInf) => NaN
  end.

Notation "- a" := (num_neg a) : js_scope.
Infix "+" := num_add : js_scope.
Infix "-" := num_sub : js_scope.
Infix "*" := num_mul : js_scope.
Infix "/" := num_div : js_scope.

(** The comparison operators of the language on numbers: every comparison
    with [NaN] is false, also [NaN == NaN]. *)

Definition num_eqb (a b : num) : bool :=
  match a, b with
  | Fin x, Fin y => if Req_dec_T x y then true else false
  | PInf, PInf | NInf, NInf => true
  | _, _ => false
  end.

Definition num_ltb (a b : num) : bool :=
  match a, b with
  | NaN, _ | _, NaN => false
  | Fin x, Fin y => if Rlt_dec x y then true else false
  | NInf, (Fin _ | PInf) => true
  | Fin _, PInf => true
  | _, _ => false
  end.

Infix "==" := num_eqb (at level 70, no associativity) : js_scope.
Infix "<?" := num_ltb : js_scope.

Definition is_fin (a : num) : Prop := exists r, a = Fin r.

(** [Math.sqrt], [Math.pow] with a natural exponent, [Math.min] and
    [Math.max] of two numbers. *)

Definition Math_sqrt (a : num) : num :=
  match a with
  | Fin r => if Rlt_dec r 0 then NaN else Fin (sqrt r)
  | PInf => PInf
  | NInf | NaN => NaN
  end.

Fixpoint Math_pow (a : num) (n : nat) : num :=
  match n with
  | O => Fin 1
  | S k => (a * Math_pow a k)%js
  end.

Definition Math_min (a b : num) : num :=
  match a, b with
  | NaN, _ | _, NaN => NaN
  | _, _ => if (b <? a)%js then b else a
  end.

Definition Math_max (a b : num) : num :=
  match a, b with
  | NaN, _ | _, NaN => NaN
  | _, _ => if (a <? b)%js then b else a
  end.

(** ** Values, truthiness and [parseInt]

    The arguments the code coerces are numbers, strings or absent
    ([undefined]). *)

Inductive value : Type :=
| VUndefined
| VNumber (n : num)
| VString (s : string).

Definition num_truthy (a : num) : bool :=
  match a with
  | Fin r => if Req_dec_T r 0 then false else true
  | PInf | NInf => true
  | NaN => false
  end.

(** [a || b] on numbers. *)
Definition num_or (a b : num) : num := if num_truthy a then a else b.

(** [o || b] where the property [o] may be absent. *)
Definition opt_or (o : option num) (b : num) : num :=
  match o with
  | Some a => num_or a b
  | None => b
  end.

(** Truncation towards zero. *)
Definition Ztrunc (r : R) : Z := if Rlt_dec r 0 then Zceil r else Zfloor r.

Definition is_white (c : ascii) : bool :=
  match nat_of_ascii c with
  | 9%nat | 10%nat | 11%nat | 12%nat | 13%nat | 32%nat | 160%nat => true
  | _ => false
  end.

Fixpoint trim_left (s : string) : string :=
  match s with
  | String c s' => if is_white c then trim_left s' else s
  | EmptyString => s
  end.

Definition digit_val (c : ascii) : option Z :=
  let n := Z.of_nat (nat_of_ascii c) in
  if ((48 <=? n) && (n <=? 57))%Z then Some (n - 48)%Z
  else if ((97 <=? n) && (n <=? 122))%Z then Some (n - 87)%Z
  else if ((65 <=? n) && (n <=? 90))%Z then Some (n - 55)%Z
  else None.

(** The longest prefix of digits of the radix, read as an integer; [acc] is
    [None] until a first digit is seen. *)
Fixpoint read_digits (radix : Z) (s : string) (acc : option Z) : option Z :=
  match s with
  | String c s' =>
      match digit_val c with
      | Some d =>
          if (d <? radix)%Z
          then read_digits radix s'
                 (Some (radix * match acc with Some a => a | None => 0 end + d)%Z)
          else acc
      | None => acc
      end
  | EmptyString => acc
  end.

(** [parseInt(s)] on a string, with no radix argument: leading white space is
    skipped, then an optional sign, then an optional [0x]/[0X] that selects
    radix 16, then the digits. *)
Definition parseInt_string (s : string) : num :=
  let s1 := trim_left s in
  let '(sign, s2) :=
    match s1 with
    | String "-"%char r => ((-1)%Z, r)
    | String "+"%char r => (1%Z, r)
    | _ => (1%Z, s1)
    end in
  let '(radix, s3) :=
    match s2 with
    | String "0"%char (String "x"%char r) => (16%Z, r)
    | String "0"%char (String "X"%char r) => (16%Z, r)
    | _ => (10%Z, s2)
    end in
  match read_digits radix s3 None with
  | Some n => Fin (IZR (sign * n))
  | None => NaN
  end.

(** [parseInt(n)] on a number first prints it.  A finite number that is zero
    or of a magnitude from 1e-6 up to, and not including, 1e21 prints in
    positional notation, and the digits before the point are read: the number
    truncated towards zero.  Any other finite number prints with an exponent,
    as one digit, a fraction and the exponent, and only that first
    significant digit is read.  [NaN] and the infinities print as words and
    give [NaN]. *)
Definition prints_positional (r : R) : bool :=
  if Req_dec_T r 0 then true
  else if Rle_dec (1 / 1000000) (Rabs r)
       then if Rlt_dec (Rabs r) 1000000000000000000000 then true else false
       else false.

(** The first significant decimal digit of a positive number. *)
Definition leading_digit (a : R) : Z :=
  Zfloor (a / powerRZ 10 (Zfloor (ln a / ln 10))).

(** The integer [parseInt] reads off the print of a finite number. *)
Definition parsed (r : R) : R :=
  if prints_positional r then IZR (Ztrunc r)
  else if Rlt_dec r 0 then - IZR (leading_digit (- r))
  else IZR (leading_digit r).

Definition parseInt_num (a : num) : num :=
  match a with
  | Fin r => Fin (parsed r)
  | PInf | NInf | NaN => NaN
  end.

Definition parseInt (v : value) : num :=
  match v with
  | VUndefined => NaN
  | VNumber n => parseInt_num n
  | VString s => parseInt_string s
  end.

(** ** [Clip]: a stationary rectangle *)

Module Clip.

Record t : Type := new { left : num; top : num; width : num; height : num }.

Definition width_to_height_ratio (this : t) : num :=
  (width this / height this)%js.

Definition height_to_width_ratio (this : t) : num :=
  (height this / width this)%js.

Definition is_square (this : t) : bool := (width this == height this)%js.

Definition is_horizontal (this : t) : bool :=
  (height this <? width this)%js.

Definition is_vertical (this : t) : bool := (width this <? height this)%js.

Definition set_width (w : num) (this : t) : t :=
  new (left this) (top this) w (height this).

Definition set_height (h : num) (this : t) : t :=
  new (left this) (top this) (width this) h.

End Clip.

(** ** [ClipAdjustment]: position, diagonal and the two fixed ratios

    The object is mutated in place by [zoom] and [move]; here each of them
    takes the object and returns the object after the call. *)

Module ClipAdjustment.

Record t : Type := mk {
  _x : num;
  _y : num;
  _hyp : num;
  _sin : num;
  _cos : num
}.

Definition new (left_ top_ : num) (width_ height_ : value) : t :=
  let hyp :=
    Math_sqrt (Math_pow (parseInt width_) 2 + Math_pow (parseInt height_) 2)%js in
  {| _x := left_;
     _y := top_;
     _hyp := hyp;
     _sin := (parseInt width_ / hyp)%js;
     _cos := (parseInt height_ / hyp)%js |}.

Definition zoom (amount_ : num) (this : t) : t :=
  let hyp := (_hyp this + amount_)%js in
  let hyp_diff := (amount_ * Fin (1 / 2))%js in
  let y := (_y this - hyp_diff * _cos this)%js in
  let x := (_x this - hyp_diff * _sin this)%js in
  {| _x := x; _y := y; _hyp := hyp; _sin := _sin this; _cos := _cos this |}.

Definition move (x_offset_ y_offset_ : num) (this : t) : t :=
  {| _x := (_x this + x_offset_)%js;
     _y := (_y this + y_offset_)%js;
     _hyp := _hyp this;
     _sin := _sin this;
     _cos := _cos this |}.

Definition getX (this : t) : num := _x this.
Definition getY (this : t) : num := _y this.
Definition getWidth (this : t) : num := (_sin this * _hyp this)%js.
Definition getHeight (this : t) : num := (_cos this * _hyp this)%js.

Definition calcHypDifferenceByWidth (new_width_ : num) (this : t) : num :=
  (_hyp this - new_width_ / _sin this)%js.

Definition calcHypDifferenceByHeight (new_height_ : num) (this : t) : num :=
  (_hyp this - new_height_ / _cos this)%js.

Definition getState (this : t) : Clip.t :=
  Clip.new (getX this) (getY this) (getWidth this) (getHeight this).

End ClipAdjustment.

(** ** [ImagePlot]: the pair of rectangles every operation returns *)

Module ImagePlot.

Record t : Type := mk { image : Clip.t; canvas : Clip.t }.

End ImagePlot.

(** ** [ImagePlotter]

    Every method mutates [this] and returns an [ImagePlot]: a method is a
    function from the plotter before the call to the returned plot and the
    plotter after the call. *)

Module ImagePlotter.

Record t : Type := mk {
  zoom_multiplier : num;
  _state : ClipAdjustment.t;
  _image : Clip.t;
  _canvas : Clip.t
}.

Definition M (A : Type) : Type := t -> A * t.

Definition set_state (s : ClipAdjustment.t) (this : t) : t :=
  mk (zoom_multiplier this) s (_image this) (_canvas this).

Definition set_zoom_multiplier (m : num) (this : t) : t :=
  mk m (_state this) (_image this) (_canvas this).

(** The options of [init] and of the constructor; an absent [orientation]
    is [None]. *)
Record init_opts : Type := { orientation : option string }.

(** The options of [zoom].  [zoom_depth] is whatever the caller passed
    ([VUndefined] when absent), [zoom_multiplier] is a number when
    present. *)
Record zoom_opts : Type := {
  zoom_depth : value;
  opt_zoom_multiplier : option num
}.

Definition image_clip (this : t) : Clip.t :=
  Clip.new (Fin 0) (Fin 0) (Clip.width (_image this)) (Clip.height (_image this)).

Definition centerFullSize : M ImagePlot.t := fun this =>
  let plot_image := image_clip this in
  let width_diff := (Clip.width (_image this) - Clip.width (_canvas this))%js in
  let height_diff := (Clip.height (_image this) - Clip.height (_canvas this))%js in
  let state :=
    ClipAdjustment.move (- width_diff * Fin (1 / 2))%js
                        (- height_diff * Fin (1 / 2))%js (_state this) in
  (ImagePlot.mk plot_image (ClipAdjustment.getState state), set_state state this).

Definition cover : M ImagePlot.t := fun this =>
  let '(_, this) := centerFullSize this in
  let plot_image := image_clip this in
  let state :=
    if (Math_min (Clip.width (_image this)) (Clip.height (_image this))
        == Clip.width (_image this))%js
    then
      let hyp_diff :=
        ClipAdjustment.calcHypDifferenceByWidth (Clip.width (_canvas this))
                                                (_state this) in
      ClipAdjustment.zoom (- hyp_diff)%js (_state this)
    else
      let hyp_diff :=
        ClipAdjustment.calcHypDifferenceByHeight (Clip.height (_canvas this))
                                                 (_state this) in
      ClipAdjustment.zoom (- hyp_diff)%js (_state this) in
  (ImagePlot.mk plot_image (ClipAdjustment.getState state), set_state state this).

Definition contain : M ImagePlot.t := fun this =>
  let '(_, this) := centerFullSize this in
  let plot_image := image_clip this in
  let state :=
    if (Math_max (Clip.width (_image this)) (Clip.height (_image this))
        == Clip.width (_image this))%js
    then
      let hyp_diff :=
        ClipAdjustment.calcHypDifferenceByWidth (Clip.width (_canvas this))
                                                (_state this) in
      ClipAdjustment.zoom (- hyp_diff)%js (_state this)
    else
      let hyp_diff :=
        ClipAdjustment.calcHypDifferenceByHeight (Clip.height (_canvas this))
                                                 (_state this) in
      ClipAdjustment.zoom (- hyp_diff)%js (_state this) in
  (ImagePlot.mk plot_image (ClipAdjustment.getState state), set_state state this).

Definition init (image_width_ image_height_ canvas_width_ canvas_height_ : num)
                (opts_ : init_opts) : M ImagePlot.t := fun this =>
  let this :=
    mk (zoom_multiplier this)
       (ClipAdjustment.new (Fin 0) (Fin 0)
                           (VNumber image_width_) (VNumber image_height_))
       (Clip.set_height image_height_ (Clip.set_width image_width_ (_image this)))
       (Clip.set_height canvas_height_ (Clip.set_width canvas_width_ (_canvas this))) in
  match orientation opts_ with
  | Some o => if String.eqb o "contain" then contain this else cover this
  | None => cover this
  end.

Definition move (x_move_ y_move_ : num) : M ImagePlot.t := fun this =>
  let plot_image := image_clip this in
  let state := ClipAdjustment.move x_move_ y_move_ (_state this) in
  (ImagePlot.mk plot_image (ClipAdjustment.getState state), set_state state this).

Definition zoom (opts_ : zoom_opts) : M ImagePlot.t := fun this =>
  let mult := opt_or (opt_zoom_multiplier opts_) (zoom_multiplier this) in
  let depth := num_or (parseInt (zoom_depth opts_)) (Fin 0) in
  let plot_image := image_clip this in
  let state := ClipAdjustment.zoom (mult * depth)%js (_state this) in
  (ImagePlot.mk plot_image (ClipAdjustment.getState state), set_state state this).

(** The object as the constructor has it before it calls [init]. *)
Definition blank : t :=
  {| zoom_multiplier := Fin 1;
     _state := ClipAdjustment.new (Fin 0) (Fin 0) (VNumber (Fin 0)) (VNumber (Fin 0));
     _image := Clip.new (Fin 0) (Fin 0) (Fin 0) (Fin 0);
     _canvas := Clip.new (Fin 0) (Fin 0) (Fin 0) (Fin 0) |}.

(** [opts_.orientation || "cover"]: an absent or empty orientation is
    replaced by ["cover"]. *)
Definition orientation_or_cover (opts_ : init_opts) : init_opts :=
  match orientation opts_ with
  | Some EmptyString | None => {| orientation := Some "cover"%string |}
  | Some s => {| orientation := Some s |}
  end.

(** [new ImagePlotter(...)]: the plot [init] returns is dropped by the
    constructor and kept here for the statements about it. *)
Definition construct (image_width_ image_height_ canvas_width_ canvas_height_ : num)
                     (opts_ : init_opts) : ImagePlot.t * t :=
  init image_width_ image_height_ canvas_width_ canvas_height_
       (orientation_or_cover opts_) blank.

Definition new (image_width_ image_height_ canvas_width_ canvas_height_ : num)
               (opts_ : init_opts) : t :=
  snd (construct image_width_ image_height_ canvas_width_ canvas_height_ opts_).

End ImagePlotter.

(** * The adjustment in binary64

    The same [ClipAdjustment], computed as the language computes it: every
    number is an IEEE 754 binary64 value and every operation rounds to
    nearest.  It is used to state where the behaviour of the code differs
    from exact arithmetic. *)

Module Binary64.

Import PrimFloat FloatOps SpecFloat.

(** Truncation towards zero of a finite nonzero number: a number with a
    nonnegative binary exponent is whole already. *)
Definition trunc (x : float) : float :=
  match Prim2SF x with
  | S754_finite s m e =>
      if (0 <=? e)%Z then x
      else
        let f := of_uint63 (Uint63.of_Z (Z.shiftr (Zpos m) (- e))) in
        if s then (- f)%float else f
  | _ => x
  end.

(** The first decimal digit of a whole number [n >= 1]. *)
Fixpoint first_digit_whole (fuel : nat) (n : Z) : Z :=
  match fuel with
  | O => n
  | S k => if (n <? 10)%Z then n else first_digit_whole k (n / 10)
  end.

(** The print of a number is the shortest decimal [d * 10^q] that reads back
    as the number, that is, that lies in the number's rounding interval: from
    halfway to the number below up to halfway to the number above, the ends
    included when the mantissa is even.  Here the interval runs from
    [lo / den] to [hi / den] and the number is [x / den]. *)
Definition least_multiple (inclusive : bool) (lo step : Z) : Z :=
  let q := (lo / step)%Z in
  if ((lo mod step =? 0)%Z && inclusive)%bool then q else (q + 1)%Z.

Definition greatest_multiple (inclusive : bool) (hi step : Z) : Z :=
  let q := (hi / step)%Z in
  if ((hi mod step =? 0)%Z && negb inclusive)%bool then (q - 1)%Z else q.

(** The multiple of [step] nearest to [x], the even one of two that are
    equally near, kept between [dmin] and [dmax]. *)
Definition closest (x step dmin dmax : Z) : Z :=
  let below := (x / step)%Z in
  let twice := (2 * (x - below * step))%Z in
  let c :=
    if (twice <? step)%Z then below
    else if (step <? twice)%Z then (below + 1)%Z
    else if Z.even below then below else (below + 1)%Z in
  Z.max dmin (Z.min dmax c).

(** The digits [d] for the largest [q], from [q] downwards, at which a
    multiple of [10^q] lies in the interval. *)
Fixpoint shortest_at (fuel : nat) (q : Z) (inclusive : bool) (lo x hi den : Z) : Z :=
  match fuel with
  | O => 0
  | S k =>
      let '(lo', x', hi', step) :=
        if (0 <=? q)%Z then (lo, x, hi, den * 10 ^ q)%Z
        else (lo * 10 ^ (- q), x * 10 ^ (- q), hi * 10 ^ (- q), den)%Z in
      let dmin := least_multiple inclusive lo' step in
      let dmax := greatest_multiple inclusive hi' step in
      if (dmin <=? dmax)%Z then closest x' step dmin dmax
      else shortest_at k (q - 1) inclusive lo x hi den
  end.

(** The digits of the print of [m * 2^e], in quarters of the last place: the
    number above is one place away, and so is the number below, except at a
    power of two, where it is half a place away.  No number reaches 1e310. *)
Definition shortest_digits (m : positive) (e : Z) : Z :=
  let boundary := ((Zpos m =? 2 ^ 52)%Z && (-1074 <? e)%Z)%bool in
  let lo := if boundary then (4 * Zpos m - 1)%Z else (4 * Zpos m - 2)%Z in
  let hi := (4 * Zpos m + 2)%Z in
  let x := (4 * Zpos m)%Z in
  let inclusive := Z.even (Zpos m) in
  let e2 := (e - 2)%Z in
  if (0 <=? e2)%Z
  then shortest_at 700 310 inclusive (lo * 2 ^ e2) (x * 2 ^ e2) (hi * 2 ^ e2) 1
  else shortest_at 700 310 inclusive lo x hi (2 ^ (- e2)).

(** The first digit of the print of a finite nonzero number, with its sign. *)
Definition leading_digit (x : float) : float :=
  match Prim2SF x with
  | S754_finite s m e =>
      let f := of_uint63 (Uint63.of_Z (first_digit_whole 400 (shortest_digits m e))) in
      if s then (- f)%float else f
  | _ => nan
  end.

(** [parseInt(n)] on a number: [NaN] and the infinities print as words; zero
    prints as [0]; a magnitude from 1e-6 (0x1.0c6f7a0b5ed8dp-20) up to, and
    not including, 1e21 (0x1.b1ae4d6e2ef5p+69) prints in positional notation
    and is truncated; any other number prints with an exponent and only its
    first digit is read. *)
Definition parseInt (x : float) : float :=
  if (is_nan x || is_infinity x)%bool then nan
  else if (x =? 0)%float then 0%float
  else if ((0x1.0c6f7a0b5ed8dp-20 <=? abs x)%float
           && (abs x <? 0x1.b1ae4d6e2ef5p+69)%float)%bool then trunc x
  else leading_digit x.

Fixpoint Math_pow (a : float) (n : nat) : float :=
  match n with
  | O => 1%float
  | S k => (a * Math_pow a k)%float
  end.

Record Clip : Type :=
  new_Clip { left : float; top : float; width : float; height : float }.

Record ClipAdjustment : Type := mk {
  _x : float;
  _y : float;
  _hyp : float;
  _sin : float;
  _cos : float
}.

Definition new (left_ top_ width_ height_ : float) : ClipAdjustment :=
  let hyp := sqrt (Math_pow (parseInt width_) 2 + Math_pow (parseInt height_) 2)%float in
  {| _x := left_;
     _y := top_;
     _hyp := hyp;
     _sin := (parseInt width_ / hyp)%float;
     _cos := (parseInt height_ / hyp)%float |}.

Definition zoom (amount_ : float) (this : ClipAdjustment) : ClipAdjustment :=
  let hyp := (_hyp this + amount_)%float in
  let hyp_diff := (amount_ * 0.5)%float in
  let y := (_y this - hyp_diff * _cos this)%float in
  let x := (_x this - hyp_diff * _sin this)%float in
  {| _x := x; _y := y; _hyp := hyp; _sin := _sin this; _cos := _cos this |}.

Definition move (x_offset_ y_offset_ : float) (this : ClipAdjustment) : ClipAdjustment :=
  {| _x := (_x this + x_offset_)%float;
     _y := (_y this + y_offset_)%float;
     _hyp := _hyp this;
     _sin := _sin this;
     _cos := _cos this |}.

Definition getX (this : ClipAdjustment) : float := _x this.
Definition getY (this : ClipAdjustment) : float := _y this.
Definition getWidth (this : ClipAdjustment) : float := (_sin this * _hyp this)%float.
Definition getHeight (this : ClipAdjustment) : float := (_cos this * _hyp this)%float.

Definition calcHypDifferenceByWidth (new_width_ : float) (this : ClipAdjustment) : float :=
  (_hyp this - new_width_ / _sin this)%float.

Definition calcHypDifferenceByHeight (new_height_ : float) (this : ClipAdjustment) : float :=
  (_hyp this - new_height_ / _cos this)%float.

Definition getState (this : ClipAdjustment) : Clip :=
  new_Clip (getX this) (getY this) (getWidth this) (getHeight this).

(** A sequence of [zoom] calls, first amount first. *)
Definition zooms (amounts : list float) (s : ClipAdjustment) : ClipAdjustment :=
  fold_left (fun acc a => zoom a acc) amounts s.

(** The comparison [==] and the division of the language. *)
Definition eqb (a b : float) : bool := (a =? b)%float.
Definition div (a b : float) : float := (a / b)%float.
Definition add (a b : float) : float := (a + b)%float.

End Binary64.

(** * Vocabulary of the statements *)

(** ** Plotters and adjustments with finite numbers *)

(** The diagonal [Math.sqrt(Math.pow(W, 2) + Math.pow(H, 2))] of finite sides. *)
Definition diag (W H : R) : R := sqrt (W * (W * 1) + H * (H * 1)).

(** [fin_plotter] is the plotter with the given multiplier, the adjustment
    [(x, y, d, s, c)], the image size [iw] by [ih] and the canvas size [cw] by
    [ch]; the corners of the two static clips are kept general. *)
Definition fin_plotter (m : num) (x y d s c : R)
                       (il it : num) (iw ih : R) (cl ct : num) (cw ch : R)
  : ImagePlotter.t :=
  ImagePlotter.mk m
    (ClipAdjustment.mk (Fin x) (Fin y) (Fin d) (Fin s) (Fin c))
    (Clip.new il it (Fin iw) (Fin ih))
    (Clip.new cl ct (Fin cw) (Fin ch)).

(** The adjustment after the recentring move and the zoom that makes the
    width equal to [cw]. *)
Definition fitted_to_width (x y d s c iw ih cw ch : R) : ClipAdjustment.t :=
  ClipAdjustment.mk
    (Fin (x - (iw - cw) / 2 + (d - cw / s) / 2 * s))
    (Fin (y - (ih - ch) / 2 + (d - cw / s) / 2 * c))
    (Fin (cw / s)) (Fin s) (Fin c).

(** The same for the height and [ch]. *)
Definition fitted_to_height (x y d s c iw ih cw ch : R) : ClipAdjustment.t :=
  ClipAdjustment.mk
    (Fin (x - (iw - cw) / 2 + (d - ch / c) / 2 * s))
    (Fin (y - (ih - ch) / 2 + (d - ch / c) / 2 * c))
    (Fin (ch / c)) (Fin s) (Fin c).

(** The plotter [init] hands to [cover] or [contain]: the sizes stored, and a
    new adjustment at the origin whose ratios are those of the integers
    [parseInt] reads off the image size. *)
Definition fresh_plotter (this : ImagePlotter.t) (iw ih cw ch : R) : ImagePlotter.t :=
  let W := parsed iw in
  let H := parsed ih in
  fin_plotter (ImagePlotter.zoom_multiplier this)
    0 0 (diag W H) (W / diag W H) (H / diag W H)
    (Clip.left (ImagePlotter._image this)) (Clip.top (ImagePlotter._image this)) iw ih
    (Clip.left (ImagePlotter._canvas this)) (Clip.top (ImagePlotter._canvas this)) cw ch.

(** The plotter for an image of [iw] by [ih] whole pixels in a canvas of [cw]
    by [ch], as the constructor has it before the fit. *)
Definition unfitted (iw ih : Z) (cw ch : R) : ImagePlotter.t :=
  fin_plotter (Fin 1) 0 0 (diag (IZR iw) (IZR ih))
    (IZR iw / diag (IZR iw) (IZR ih)) (IZR ih / diag (IZR iw) (IZR ih))
    (Fin 0) (Fin 0) (IZR iw) (IZR ih) (Fin 0) (Fin 0) cw ch.

Definition fin_adjustment (s : ClipAdjustment.t) : Prop :=
  exists x y d sn cs : R,
    s = ClipAdjustment.mk (Fin x) (Fin y) (Fin d) (Fin sn) (Fin cs).

Definition nan_ratios (s : ClipAdjustment.t) : Prop :=
  ClipAdjustment._sin s = NaN /\ ClipAdjustment._cos s = NaN.

(** ** Options *)

Definition opts_cover : ImagePlotter.init_opts :=
  {| ImagePlotter.orientation := Some "cover"%string |}.

Definition opts_contain : ImagePlotter.init_opts :=
  {| ImagePlotter.orientation := Some "contain"%string |}.

(** Whether [init] dispatches to [contain]. *)
Definition wants_contain (o : ImagePlotter.init_opts) : bool :=
  match ImagePlotter.orientation o with
  | Some s => String.eqb s "contain"
  | None => false
  end.

(** The options of a [zoom] call with a finite multiplier, or none. *)
Definition zoom_call (depth : value) (multiplier : option R) : ImagePlotter.zoom_opts :=
  {| ImagePlotter.zoom_depth := depth;
     ImagePlotter.opt_zoom_multiplier := option_map Fin multiplier |}.

(** ** Sequences of calls on an adjustment *)

(** The centre of the rectangle: [(x + width()/2, y + height()/2)]. *)
Definition center (s : ClipAdjustment.t) : num * num :=
  ((ClipAdjustment.getX s + ClipAdjustment.getWidth s / Fin 2)%js,
   (ClipAdjustment.getY s + ClipAdjustment.getHeight s / Fin 2)%js).

(** A sequence of [zoom] calls, first amount first. *)
Definition zooms (amounts : list R) (s : ClipAdjustment.t) : ClipAdjustment.t :=
  fold_left (fun acc a => ClipAdjustment.zoom (Fin a) acc) amounts s.

(** The calls that change an adjustment, with the finite numbers a caller
    passes, and an adjustment after a sequence of them. *)
Inductive adjust_call : Type :=
| CallZoom (amount : R)
| CallMove (x_offset y_offset : R).

Definition apply_call (s : ClipAdjustment.t) (c : adjust_call) : ClipAdjustment.t :=
  match c with
  | CallZoom a => ClipAdjustment.zoom (Fin a) s
  | CallMove dx dy => ClipAdjustment.move (Fin dx) (Fin dy) s
  end.

Definition after_calls (calls : list adjust_call) (s : ClipAdjustment.t)
  : ClipAdjustment.t :=
  fold_left apply_call calls s.

(** ** The two fits *)

(** What both fits do when they take the width branch: recentre, then zoom
    by the difference that makes the width the width of the canvas. *)
Definition fit_width_branch : ImagePlotter.M ImagePlot.t := fun this =>
  let this := snd (ImagePlotter.centerFullSize this) in
  let hyp_diff :=
    ClipAdjustment.calcHypDifferenceByWidth (Clip.width (ImagePlotter._canvas this))
                                            (ImagePlotter._state this) in
  let state := ClipAdjustment.zoom (- hyp_diff)%js (ImagePlotter._state this) in
  (ImagePlot.mk (ImagePlotter.image_clip this) (ClipAdjustment.getState state),
   ImagePlotter.set_state state this).

(** ** The states a plotter can be in

    A plotter is made by the constructor and changed by its methods and by
    assignments to its public field [zoom_multiplier].  The numbers a caller
    passes are finite; [zoom_depth] is any value. *)

Inductive reachable : ImagePlotter.t -> Prop :=
| reach_new (iw ih cw ch : R) (o : ImagePlotter.init_opts) :
    reachable (ImagePlotter.new (Fin iw) (Fin ih) (Fin cw) (Fin ch) o)
| reach_init (this : ImagePlotter.t) (iw ih cw ch : R) (o : ImagePlotter.init_opts) :
    reachable this ->
    reachable (snd (ImagePlotter.init (Fin iw) (Fin ih) (Fin cw) (Fin ch) o this))
| reach_centerFullSize (this : ImagePlotter.t) :
    reachable this -> reachable (snd (ImagePlotter.centerFullSize this))
| reach_cover (this : ImagePlotter.t) :
    reachable this -> reachable (snd (ImagePlotter.cover this))
| reach_contain (this : ImagePlotter.t) :
    reachable this -> reachable (snd (ImagePlotter.contain this))
| reach_move (this : ImagePlotter.t) (dx dy : R) :
    reachable this -> reachable (snd (ImagePlotter.move (Fin dx) (Fin dy) this))
| reach_zoom (this : ImagePlotter.t) (depth : value) (multiplier : option R) :
    reachable this ->
    reachable (snd (ImagePlotter.zoom (zoom_call depth multiplier) this))
| reach_set_zoom_multiplier (this : ImagePlotter.t) (m : R) :
    reachable this -> reachable (ImagePlotter.set_zoom_multiplier (Fin m) this).

(** An adjustment is settled when its two ratios are finite, or else its
    position is already [NaN]. *)
Definition settled (s : ClipAdjustment.t) : Prop :=
  (is_fin (ClipAdjustment._sin s) /\ is_fin (ClipAdjustment._cos s)) \/
  (ClipAdjustment._x s = NaN /\ ClipAdjustment._y s = NaN).

Definition plotter_inv (this : ImagePlotter.t) : Prop :=
  is_fin (ImagePlotter.zoom_multiplier this) /\ settled (ImagePlotter._state this).

(** Every state of a plotter: the same constructor, methods and assignments,
    with any numbers as arguments, the infinities and [NaN] included, and any
    options. *)
Inductive plotter_state : ImagePlotter.t -> Prop :=
| state_new (iw ih cw ch : num) (o : ImagePlotter.init_opts) :
    plotter_state (ImagePlotter.new iw ih cw ch o)
| state_init (this : ImagePlotter.t) (iw ih cw ch : num) (o : ImagePlotter.init_opts) :
    plotter_state this ->
    plotter_state (snd (ImagePlotter.init iw ih cw ch o this))
| state_centerFullSize (this : ImagePlotter.t) :
    plotter_state this -> plotter_state (snd (ImagePlotter.centerFullSize this))
| state_cover (this : ImagePlotter.t) :
    plotter_state this -> plotter_state (snd (ImagePlotter.cover this))
| state_contain (this : ImagePlotter.t) :
    plotter_state this -> plotter_state (snd (ImagePlotter.contain this))
| state_move (this : ImagePlotter.t) (dx dy : num) :
    plotter_state this -> plotter_state (snd (ImagePlotter.move dx dy this))
| state_zoom (this : ImagePlotter.t) (opts_ : ImagePlotter.zoom_opts) :
    plotter_state this -> plotter_state (snd (ImagePlotter.zoom opts_ this))
| state_set_zoom_multiplier (this : ImagePlotter.t) (m : num) :
    plotter_state this -> plotter_state (ImagePlotter.set_zoom_multiplier m this).

(** ** The multiplier and the depth of a zoom request *)

(** The multiplier [zoom] works with: the one of the call when it is present
    and neither zero nor [NaN], the field of the plotter otherwise. *)
Definition effective_multiplier (opts_ : ImagePlotter.zoom_opts) (this : ImagePlotter.t)
  : num :=
  match ImagePlotter.opt_zoom_multiplier opts_ with
  | None | Some NaN => ImagePlotter.zoom_multiplier this
  | Some (Fin r) => if Req_dec_T r 0 then ImagePlotter.zoom_multiplier this else Fin r
  | Some PInf => PInf
  | Some NInf => NInf
  end.

(** The depth [zoom] works with: the integer read off [zoom_depth], and zero
    when there is none. *)
Definition coerced_depth (opts_ : ImagePlotter.zoom_opts) : num :=
  match parseInt (ImagePlotter.zoom_depth opts_) with
  | NaN => Fin 0
  | d => d
  end.

(** The multiplier as the specification words it: the one of the call
    whenever one is supplied, zero included. *)
Definition multiplier_as_claimed (opts_ : ImagePlotter.zoom_opts) (this : ImagePlotter.t)
  : num :=
  match ImagePlotter.opt_zoom_multiplier opts_ with
  | Some m => m
  | None => ImagePlotter.zoom_multiplier this
  end.

(** The plotter after [zoom] as the specification words it. *)
Definition zoom_as_claimed (opts_ : ImagePlotter.zoom_opts) (this : ImagePlotter.t)
  : ImagePlotter.t :=
  ImagePlotter.set_state
    (ClipAdjustment.zoom (multiplier_as_claimed opts_ this * coerced_depth opts_)%js
                         (ImagePlotter._state this))
    this.

(** ** Sequences of calls on a plotter *)

(** The methods a caller runs on a plotter after it is built, with the finite
    numbers a caller passes; [zoom_depth] is any value. *)
Inductive plotter_call : Type :=
| PCenterFullSize
| PCover
| PContain
| PMove (x_move y_move : R)
| PZoom (depth : value) (multiplier : option R).

Definition run_call (c : plotter_call) : ImagePlotter.M ImagePlot.t :=
  match c with
  | PCenterFullSize => ImagePlotter.centerFullSize
  | PCover => ImagePlotter.cover
  | PContain => ImagePlotter.contain
  | PMove dx dy => ImagePlotter.move (Fin dx) (Fin dy)
  | PZoom depth multiplier => ImagePlotter.zoom (zoom_call depth multiplier)
  end.

(** The plotter after a sequence of calls, first call first. *)
Definition run_calls (calls : list plotter_call) (this : ImagePlotter.t)
  : ImagePlotter.t :=
  fold_left (fun p c => snd (run_call c p)) calls this.

(** A plotter all of whose numbers are finite, with the ratios [s] and [c],
    both nonzero. *)
Definition finite_with_ratios (s c : R) (this : ImagePlotter.t) : Prop :=
  s <> 0 /\ c <> 0 /\
  exists (m x y d : R) (il it : num) (iw ih : R) (cl ct : num) (cw ch : R),
    this = fin_plotter (Fin m) x y d s c il it iw ih cl ct cw ch.

(** The plotter [init] hands to [cover] or [contain], for any numbers: the
    sizes stored and a new adjustment at the origin. *)
Definition prepared_plotter (this : ImagePlotter.t) (iw ih cw ch : num) : ImagePlotter.t :=
  ImagePlotter.mk (ImagePlotter.zoom_multiplier this)
    (ClipAdjustment.new (Fin 0) (Fin 0) (VNumber iw) (VNumber ih))
    (Clip.set_height ih (Clip.set_width iw (ImagePlotter._image this)))
    (Clip.set_height ch (Clip.set_width cw (ImagePlotter._canvas this))).

(** The side the constructor fits: [cover] the shorter side of the image,
    [contain] the longer one, the width on a tie. *)
Definition fits_width (o : ImagePlotter.init_opts) (iw ih : Z) : bool :=
  if wants_contain o then (ih <=? iw)%Z else (iw <=? ih)%Z.

(** The fit of the orientation, called as a method. *)
Definition refit (o : ImagePlotter.init_opts) : ImagePlotter.M ImagePlot.t :=
  if wants_contain o then ImagePlotter.contain else ImagePlotter.cover.

(** A rectangle whose four numbers are [NaN]. *)
Definition nan_clip : Clip.t := Clip.new NaN NaN NaN NaN.


(** * Properties *)

(** ** Numbers *)

Lemma num_div_fin (a b : R) : b <> 0 -> (Fin a / Fin b)%js = Fin (a / b).
Proof.
  intros Hb. unfold num_div. destruct (Req_dec_T b 0) as [E | _]; [contradiction | reflexivity].
Qed.

Lemma num_div_zero_zero : (Fin 0 / Fin 0)%js = NaN.
Proof.
  unfold num_div, Rsign_inf.
  destruct (Req_dec_T 0 0) as [_ | N]; [ | lra].
  destruct (Rlt_dec 0 0) as [L | _]; [lra | reflexivity].
Qed.

Lemma Math_sqrt_fin (r : R) : 0 <= r -> Math_sqrt (Fin r) = Fin (sqrt r).
Proof.
  intros Hr. unfold Math_sqrt. destruct (Rlt_dec r 0) as [L | _]; [lra | reflexivity].
Qed.

Lemma num_eqb_fin (a b : R) : (Fin a == Fin b)%js = true <-> a = b.
Proof.
  unfold num_eqb. destruct (Req_dec_T a b) as [E | N]; split; intros H;
    try reflexivity; try assumption; try discriminate; contradiction.
Qed.

Lemma num_eqb_eq (a b : num) : (a == b)%js = true -> a = b.
Proof.
  destruct a, b; simpl; try discriminate; try reflexivity.
  destruct (Req_dec_T r r0); [intros _; subst; reflexivity | discriminate].
Qed.

Lemma num_eqb_refl_fin (a : R) : (Fin a == Fin a)%js = true.
Proof. apply num_eqb_fin. reflexivity. Qed.

Lemma num_add_assoc (a b c : num) : (a + (b + c))%js = (a + b + c)%js.
Proof.
  destruct a, b, c; simpl; try reflexivity. f_equal. lra.
Qed.

Lemma num_add_zero_r (a : num) (z : R) : z = 0 -> (a + Fin z)%js = a.
Proof.
  intros ->. destruct a; simpl; try reflexivity. f_equal. lra.
Qed.

Lemma num_sub_zero_r (a : num) (z : R) : z = 0 -> (a - Fin z)%js = a.
Proof.
  intros ->. unfold num_sub. simpl. apply num_add_zero_r. lra.
Qed.

Lemma Ztrunc_IZR (z : Z) : Ztrunc (IZR z) = z.
Proof.
  unfold Ztrunc. destruct (Rlt_dec (IZR z) 0).
  - unfold Zceil. rewrite <- opp_IZR, ZfloorZ. lia.
  - apply ZfloorZ.
Qed.

(** Numbers that print in positional notation are truncated. *)
Lemma parsed_positional (r : R) :
  r = 0 \/ 1 / 1000000 <= Rabs r < 1000000000000000000000 ->
  parsed r = IZR (Ztrunc r).
Proof.
  intros Hr. unfold parsed, prints_positional.
  destruct (Req_dec_T r 0) as [E | N]; [reflexivity | ].
  destruct Hr as [E | [Hlo Hhi]]; [contradiction | ].
  destruct (Rle_dec (1 / 1000000) (Rabs r)); [ | contradiction].
  destruct (Rlt_dec (Rabs r) 1000000000000000000000); [reflexivity | contradiction].
Qed.

(** Whole numbers below 1e21 in magnitude are read back as they are. *)
Lemma parsed_IZR (z : Z) :
  (Z.abs z < 1000000000000000000000)%Z -> parsed (IZR z) = IZR z.
Proof.
  intros Hz. rewrite parsed_positional; [rewrite Ztrunc_IZR; reflexivity | ].
  destruct (Z.eq_dec z 0) as [-> | N]; [left; reflexivity | right].
  rewrite <- abs_IZR. split.
  - apply Rle_trans with (IZR 1); [lra | apply IZR_le; lia].
  - apply IZR_lt. exact Hz.
Qed.

(** The first significant digit, from the decade the number lies in. *)
Lemma ln_10_pos : 0 < ln 10.
Proof. rewrite <- ln_1. apply ln_increasing; lra. Qed.

Lemma ln_powerRZ_10 (e : Z) : ln (powerRZ 10 e) = IZR e * ln 10.
Proof. rewrite powerRZ_Rpower by lra. apply ln_Rpower. Qed.

Lemma decade_of (a : R) (e : Z) :
  powerRZ 10 e <= a < powerRZ 10 (e + 1) -> Zfloor (ln a / ln 10) = e.
Proof.
  intros [Hlo Hhi]. pose proof ln_10_pos as L.
  pose proof (powerRZ_lt 10 e ltac:(lra)) as P.
  assert (Ha : 0 < a) by lra.
  apply Zfloor_eq. split.
  - apply Rmult_le_reg_r with (ln 10); [exact L | ].
    unfold Rdiv. rewrite Rmult_assoc, Rinv_l, Rmult_1_r by lra.
    rewrite <- ln_powerRZ_10.
    destruct Hlo as [Hlt | ->]; [left; apply ln_increasing; assumption | right; reflexivity].
  - apply Rmult_lt_reg_r with (ln 10); [exact L | ].
    unfold Rdiv. rewrite Rmult_assoc, Rinv_l, Rmult_1_r by lra.
    replace ((IZR e + 1) * ln 10) with (IZR (e + 1) * ln 10) by (rewrite plus_IZR; ring).
    rewrite <- ln_powerRZ_10. apply ln_increasing; assumption.
Qed.

Lemma leading_digit_decade (a : R) (e d : Z) :
  IZR d * powerRZ 10 e <= a < (IZR d + 1) * powerRZ 10 e ->
  (1 <= d <= 9)%Z ->
  leading_digit a = d.
Proof.
  intros [Hlo Hhi] Hd. pose proof (powerRZ_lt 10 e ltac:(lra)) as P.
  assert (D1 : 1 <= IZR d) by (apply IZR_le; lia).
  assert (D9 : IZR d <= 9) by (apply IZR_le; lia).
  unfold leading_digit. rewrite (decade_of a e).
  - apply Zfloor_eq. split.
    + apply Rmult_le_reg_r with (powerRZ 10 e); [exact P | ].
      unfold Rdiv. rewrite Rmult_assoc, Rinv_l, Rmult_1_r by lra. exact Hlo.
    + apply Rmult_lt_reg_r with (powerRZ 10 e); [exact P | ].
      unfold Rdiv. rewrite Rmult_assoc, Rinv_l, Rmult_1_r by lra. exact Hhi.
  - rewrite powerRZ_add by lra. rewrite powerRZ_1. split; nra.
Qed.

(** [parseInt(0.0000005)] is 5: the number prints as [5e-7]. *)
Example parseInt_small_number :
  parseInt (VNumber (Fin (5 / 10000000))) = Fin 5.
Proof.
  cbn [parseInt parseInt_num]. f_equal. unfold parsed, prints_positional.
  destruct (Req_dec_T (5 / 10000000) 0) as [E | _]; [lra | ].
  rewrite Rabs_pos_eq by lra.
  destruct (Rle_dec (1 / 1000000) (5 / 10000000)) as [L | _]; [lra | ].
  destruct (Rlt_dec (5 / 10000000) 0) as [L | _]; [lra | ].
  rewrite (leading_digit_decade _ (-7) 5); [reflexivity | | lia].
  assert (E : powerRZ 10 (-7) = / 10000000) by (simpl; f_equal; lra).
  rewrite E. lra.
Qed.

(** [parseInt("12px")] is 12, [parseInt(" -0x1F")] is -31, and a string
    without leading digits gives [NaN]. *)
Example parseInt_strings :
  parseInt (VString "12px") = Fin 12 /\
  parseInt (VString " -0x1F") = Fin (-31) /\
  parseInt (VString "px12") = NaN /\
  parseInt (VString "") = NaN.
Proof. repeat split. Qed.

Lemma parseInt_integer (z : Z) :
  (Z.abs z < 1000000000000000000000)%Z ->
  parseInt (VNumber (Fin (IZR z))) = Fin (IZR z).
Proof. intros Hz. simpl. rewrite parsed_IZR by exact Hz. reflexivity. Qed.

Lemma Math_min_branch (a b : R) :
  (Math_min (Fin a) (Fin b) == Fin a)%js = if Rle_dec a b then true else false.
Proof.
  unfold Math_min, num_ltb.
  destruct (Rlt_dec b a) as [L | L]; destruct (Rle_dec a b) as [G | G]; try lra.
  - unfold num_eqb. destruct (Req_dec_T b a); [lra | reflexivity].
  - apply num_eqb_refl_fin.
Qed.

Lemma Math_max_branch (a b : R) :
  (Math_max (Fin a) (Fin b) == Fin a)%js = if Rle_dec b a then true else false.
Proof.
  unfold Math_max, num_ltb.
  destruct (Rlt_dec a b) as [L | L]; destruct (Rle_dec b a) as [G | G]; try lra.
  - unfold num_eqb. destruct (Req_dec_T b a); [lra | reflexivity].
  - apply num_eqb_refl_fin.
Qed.

(** On equal arguments [Math.min] and [Math.max] agree, whatever the
    arguments are. *)
Lemma Math_min_max_same (a : num) : Math_min a a = Math_max a a.
Proof.
  destruct a; reflexivity.
Qed.

(** ** The diagonal of a fresh adjustment *)

Lemma diag_radicand_nonneg (W H : R) : 0 <= W * (W * 1) + H * (H * 1).
Proof. nra. Qed.

Lemma diag_pos (W H : R) : W <> 0 \/ H <> 0 -> 0 < diag W H.
Proof.
  intros Hnz. unfold diag. apply sqrt_lt_R0. destruct Hnz; nra.
Qed.

Lemma diag_zero : diag 0 0 = 0.
Proof.
  unfold diag. replace (0 * (0 * 1) + 0 * (0 * 1)) with 0 by ring. apply sqrt_0.
Qed.

(** The fields of [new ClipAdjustment(x, y, w, h)] for numbers [w] and [h]
    of which [parseInt] reads integers that are not both zero. *)
Lemma new_adjustment_fin (x y : num) (w h : R) :
  let W := parsed w in
  let H := parsed h in
  W <> 0 \/ H <> 0 ->
  ClipAdjustment.new x y (VNumber (Fin w)) (VNumber (Fin h)) =
  ClipAdjustment.mk x y (Fin (diag W H)) (Fin (W / diag W H)) (Fin (H / diag W H)).
Proof.
  intros W H Hnz. pose proof (diag_pos W H Hnz) as Hd.
  unfold ClipAdjustment.new.
  cbn [parseInt parseInt_num Math_pow num_mul num_add].
  fold W H. rewrite Math_sqrt_fin by apply diag_radicand_nonneg.
  fold (diag W H). rewrite !num_div_fin by lra. reflexivity.
Qed.

(** When [parseInt] reads zero off both, the diagonal is zero and both ratios
    are [0/0]. *)
Lemma new_adjustment_degenerate (x y : num) (w h : R) :
  parsed w = 0 -> parsed h = 0 ->
  ClipAdjustment.new x y (VNumber (Fin w)) (VNumber (Fin h)) =
  ClipAdjustment.mk x y (Fin 0) NaN NaN.
Proof.
  intros HW HH. unfold ClipAdjustment.new.
  cbn [parseInt parseInt_num Math_pow num_mul num_add].
  rewrite HW, HH. rewrite Math_sqrt_fin by lra.
  fold (diag 0 0). rewrite diag_zero, num_div_zero_zero. reflexivity.
Qed.

(** ** Fitting one side: the zoom that [cover] and [contain] apply *)

Lemma zoom_fin (a x y d s c : R) :
  ClipAdjustment.zoom (Fin a) (ClipAdjustment.mk (Fin x) (Fin y) (Fin d) (Fin s) (Fin c)) =
  ClipAdjustment.mk (Fin (x + - (a * (1 / 2) * s))) (Fin (y + - (a * (1 / 2) * c)))
                    (Fin (d + a)) (Fin s) (Fin c).
Proof. reflexivity. Qed.

Lemma hyp_difference_by_width_fin (cw x y d s c : R) :
  s <> 0 ->
  ClipAdjustment.calcHypDifferenceByWidth (Fin cw)
    (ClipAdjustment.mk (Fin x) (Fin y) (Fin d) (Fin s) (Fin c)) = Fin (d + - (cw / s)).
Proof.
  intros Hs. unfold ClipAdjustment.calcHypDifferenceByWidth. cbn [ClipAdjustment._hyp ClipAdjustment._sin].
  rewrite num_div_fin by assumption. reflexivity.
Qed.

Lemma hyp_difference_by_height_fin (ch x y d s c : R) :
  c <> 0 ->
  ClipAdjustment.calcHypDifferenceByHeight (Fin ch)
    (ClipAdjustment.mk (Fin x) (Fin y) (Fin d) (Fin s) (Fin c)) = Fin (d + - (ch / c)).
Proof.
  intros Hc. unfold ClipAdjustment.calcHypDifferenceByHeight. cbn [ClipAdjustment._hyp ClipAdjustment._cos].
  rewrite num_div_fin by assumption. reflexivity.
Qed.

(** ** [cover] and [contain] on a plotter whose numbers are all finite *)

Ltac unfold_plotter :=
  unfold ImagePlotter.cover, ImagePlotter.contain, ImagePlotter.centerFullSize,
    ImagePlotter.image_clip, ImagePlotter.set_state, fin_plotter,
    ClipAdjustment.move;
  cbn [ImagePlotter._state ImagePlotter._image ImagePlotter._canvas
       ImagePlotter.zoom_multiplier Clip.width Clip.height Clip.left Clip.top
       ClipAdjustment.move ClipAdjustment._x ClipAdjustment._y ClipAdjustment._hyp
       ClipAdjustment._sin ClipAdjustment._cos num_sub num_add num_neg num_mul].

(** Equality of two adjustments with finite fields, field by field. *)
Ltac fin_record :=
  f_equal; apply f_equal; first [ring | field; assumption | lra].

Ltac fit_state st :=
  match goal with
  | |- context [ClipAdjustment.getState ?s0] =>
      replace s0 with st by (unfold fitted_to_width, fitted_to_height; fin_record)
  end.

Lemma cover_width_fin (m : num) (x y d s c : R) (il it : num) (iw ih : R) (cl ct : num) (cw ch : R) :
  s <> 0 -> iw <= ih ->
  let this := fin_plotter m x y d s c il it iw ih cl ct cw ch in
  let st := fitted_to_width x y d s c iw ih cw ch in
  ImagePlotter.cover this =
  (ImagePlot.mk (Clip.new (Fin 0) (Fin 0) (Fin iw) (Fin ih)) (ClipAdjustment.getState st),
   ImagePlotter.set_state st this).
Proof.
  intros Hs Hle this st. subst this st. unfold_plotter.
  rewrite Math_min_branch. destruct (Rle_dec iw ih) as [_ | N]; [ | contradiction].
  rewrite hyp_difference_by_width_fin by assumption.
  cbn [num_neg]. rewrite zoom_fin.
  fit_state (fitted_to_width x y d s c iw ih cw ch). reflexivity.
Qed.

Lemma cover_height_fin (m : num) (x y d s c : R) (il it : num) (iw ih : R) (cl ct : num) (cw ch : R) :
  c <> 0 -> ih < iw ->
  let this := fin_plotter m x y d s c il it iw ih cl ct cw ch in
  let st := fitted_to_height x y d s c iw ih cw ch in
  ImagePlotter.cover this =
  (ImagePlot.mk (Clip.new (Fin 0) (Fin 0) (Fin iw) (Fin ih)) (ClipAdjustment.getState st),
   ImagePlotter.set_state st this).
Proof.
  intros Hc Hlt this st. subst this st. unfold_plotter.
  rewrite Math_min_branch. destruct (Rle_dec iw ih) as [N | _]; [lra | ].
  rewrite hyp_difference_by_height_fin by assumption.
  cbn [num_neg]. rewrite zoom_fin.
  fit_state (fitted_to_height x y d s c iw ih cw ch). reflexivity.
Qed.

Lemma contain_width_fin (m : num) (x y d s c : R) (il it : num) (iw ih : R) (cl ct : num) (cw ch : R) :
  s <> 0 -> ih <= iw ->
  let this := fin_plotter m x y d s c il it iw ih cl ct cw ch in
  let st := fitted_to_width x y d s c iw ih cw ch in
  ImagePlotter.contain this =
  (ImagePlot.mk (Clip.new (Fin 0) (Fin 0) (Fin iw) (Fin ih)) (ClipAdjustment.getState st),
   ImagePlotter.set_state st this).
Proof.
  intros Hs Hle this st. subst this st. unfold_plotter.
  rewrite Math_max_branch. destruct (Rle_dec ih iw) as [_ | N]; [ | contradiction].
  rewrite hyp_difference_by_width_fin by assumption.
  cbn [num_neg]. rewrite zoom_fin.
  fit_state (fitted_to_width x y d s c iw ih cw ch). reflexivity.
Qed.

Lemma contain_height_fin (m : num) (x y d s c : R) (il it : num) (iw ih : R) (cl ct : num) (cw ch : R) :
  c <> 0 -> iw < ih ->
  let this := fin_plotter m x y d s c il it iw ih cl ct cw ch in
  let st := fitted_to_height x y d s c iw ih cw ch in
  ImagePlotter.contain this =
  (ImagePlot.mk (Clip.new (Fin 0) (Fin 0) (Fin iw) (Fin ih)) (ClipAdjustment.getState st),
   ImagePlotter.set_state st this).
Proof.
  intros Hc Hlt this st. subst this st. unfold_plotter.
  rewrite Math_max_branch. destruct (Rle_dec ih iw) as [N | _]; [lra | ].
  rewrite hyp_difference_by_height_fin by assumption.
  cbn [num_neg]. rewrite zoom_fin.
  fit_state (fitted_to_height x y d s c iw ih cw ch). reflexivity.
Qed.

(** The size of a fitted adjustment. *)
Lemma fitted_to_width_size (x y d s c iw ih cw ch : R) :
  s <> 0 ->
  let st := fitted_to_width x y d s c iw ih cw ch in
  ClipAdjustment.getWidth st = Fin cw /\
  ClipAdjustment.getHeight st = Fin (cw * c / s).
Proof.
  intros Hs st. unfold st, fitted_to_width, ClipAdjustment.getWidth, ClipAdjustment.getHeight.
  cbn [ClipAdjustment._sin ClipAdjustment._cos ClipAdjustment._hyp num_mul].
  split; apply f_equal; field; assumption.
Qed.

Lemma fitted_to_height_size (x y d s c iw ih cw ch : R) :
  c <> 0 ->
  let st := fitted_to_height x y d s c iw ih cw ch in
  ClipAdjustment.getWidth st = Fin (ch * s / c) /\
  ClipAdjustment.getHeight st = Fin ch.
Proof.
  intros Hc st. unfold st, fitted_to_height, ClipAdjustment.getWidth, ClipAdjustment.getHeight.
  cbn [ClipAdjustment._sin ClipAdjustment._cos ClipAdjustment._hyp num_mul].
  split; apply f_equal; field; assumption.
Qed.

(** ** [init] and the constructor on finite sizes *)

Lemma init_fin (this : ImagePlotter.t) (iw ih cw ch : R) (o : ImagePlotter.init_opts) :
  parsed iw <> 0 \/ parsed ih <> 0 ->
  ImagePlotter.init (Fin iw) (Fin ih) (Fin cw) (Fin ch) o this =
  match ImagePlotter.orientation o with
  | Some o =>
      if String.eqb o "contain"
      then ImagePlotter.contain (fresh_plotter this iw ih cw ch)
      else ImagePlotter.cover (fresh_plotter this iw ih cw ch)
  | None => ImagePlotter.cover (fresh_plotter this iw ih cw ch)
  end.
Proof.
  intros Hnz. unfold ImagePlotter.init. rewrite new_adjustment_fin by assumption.
  reflexivity.
Qed.

Lemma sin_ratio_nonzero (W H : R) : W <> 0 -> W / diag W H <> 0.
Proof.
  intros HW. pose proof (diag_pos W H (or_introl HW)) as Hd.
  unfold Rdiv. apply Rmult_integral_contrapositive_currified; [assumption | ].
  apply Rinv_neq_0_compat. lra.
Qed.

Lemma cos_ratio_nonzero (W H : R) : H <> 0 -> H / diag W H <> 0.
Proof.
  intros HH. pose proof (diag_pos W H (or_intror HH)) as Hd.
  unfold Rdiv. apply Rmult_integral_contrapositive_currified; [assumption | ].
  apply Rinv_neq_0_compat. lra.
Qed.

(** A snapshot with finite fields is settled field by field; [D] is the
    diagonal the ratios are taken over. *)
Ltac eval_snapshot D :=
  unfold ClipAdjustment.getState, ClipAdjustment.getX, ClipAdjustment.getY,
    ClipAdjustment.getWidth, ClipAdjustment.getHeight, fitted_to_width, fitted_to_height;
  cbn [ClipAdjustment._x ClipAdjustment._y ClipAdjustment._hyp ClipAdjustment._sin
       ClipAdjustment._cos num_mul];
  assert (D <> 0) by (apply Rgt_not_eq, diag_pos; left; lra);
  repeat match goal with
    | |- Fin _ = Fin _ => apply f_equal
    | |- Clip.new _ _ _ _ = Clip.new _ _ _ _ => f_equal
    | |- ImagePlot.mk _ _ = ImagePlot.mk _ _ => f_equal
    | |- ClipAdjustment.mk _ _ _ _ _ = ClipAdjustment.mk _ _ _ _ _ => f_equal
    | |- ImagePlotter.mk _ _ _ _ = ImagePlotter.mk _ _ _ _ => f_equal
    | |- (_, _) = (_, _) => f_equal
    end;
  try (field; repeat split; first [assumption | lra]).

(** The first scenario of the specification: a 400 by 200 image covering a
    100 by 100 canvas is 200 by 100 at (-50, 0). *)
Example scenario_cover :
  fst (ImagePlotter.construct (Fin 400) (Fin 200) (Fin 100) (Fin 100) opts_cover) =
  ImagePlot.mk (Clip.new (Fin 0) (Fin 0) (Fin 400) (Fin 200))
               (Clip.new (Fin (-50)) (Fin 0) (Fin 200) (Fin 100)).
Proof.
  unfold ImagePlotter.construct.
  rewrite init_fin by (rewrite !parsed_IZR by lia; left; lra).
  cbn [ImagePlotter.orientation_or_cover ImagePlotter.orientation opts_cover String.eqb
       Ascii.eqb Bool.eqb].
  unfold fresh_plotter. rewrite !parsed_IZR by lia.
  rewrite cover_height_fin by (try apply cos_ratio_nonzero; lra).
  cbn [fst]. eval_snapshot (diag 400 200).
Qed.

(** The second scenario: the same image contained in the same canvas is 100
    by 50 at (0, 25). *)
Example scenario_contain :
  fst (ImagePlotter.construct (Fin 400) (Fin 200) (Fin 100) (Fin 100) opts_contain) =
  ImagePlot.mk (Clip.new (Fin 0) (Fin 0) (Fin 400) (Fin 200))
               (Clip.new (Fin 0) (Fin 25) (Fin 100) (Fin 50)).
Proof.
  unfold ImagePlotter.construct.
  rewrite init_fin by (rewrite !parsed_IZR by lia; left; lra).
  cbn [ImagePlotter.orientation_or_cover ImagePlotter.orientation opts_contain String.eqb
       Ascii.eqb Bool.eqb].
  unfold fresh_plotter. rewrite !parsed_IZR by lia.
  rewrite contain_width_fin by (try apply sin_ratio_nonzero; lra).
  cbn [fst]. eval_snapshot (diag 400 200).
Qed.

(** ** Zoom *)

Lemma center_fin (x y d s c : R) :
  center (ClipAdjustment.mk (Fin x) (Fin y) (Fin d) (Fin s) (Fin c)) =
  (Fin (x + s * d / 2), Fin (y + c * d / 2)).
Proof.
  unfold center, ClipAdjustment.getX, ClipAdjustment.getY, ClipAdjustment.getWidth,
    ClipAdjustment.getHeight.
  cbn [ClipAdjustment._x ClipAdjustment._y ClipAdjustment._hyp ClipAdjustment._sin
       ClipAdjustment._cos num_mul].
  rewrite !num_div_fin by lra. reflexivity.
Qed.

Lemma center_nan_ratios (x y d : num) :
  center (ClipAdjustment.mk x y d NaN NaN) = (NaN, NaN).
Proof.
  unfold center, ClipAdjustment.getX, ClipAdjustment.getY, ClipAdjustment.getWidth,
    ClipAdjustment.getHeight.
  cbn [ClipAdjustment._x ClipAdjustment._y ClipAdjustment._hyp ClipAdjustment._sin
       ClipAdjustment._cos].
  destruct x, y; reflexivity.
Qed.

Lemma trunc_pair_cases (w h : R) :
  (parsed w <> 0 \/ parsed h <> 0) \/
  (parsed w = 0 /\ parsed h = 0).
Proof.
  destruct (Req_dec (parsed w) 0), (Req_dec (parsed h) 0); auto.
Qed.

Lemma after_calls_fin (calls : list adjust_call) (s : ClipAdjustment.t) :
  fin_adjustment s -> fin_adjustment (after_calls calls s).
Proof.
  revert s. induction calls as [ | c calls IH]; intros s Hs; [exact Hs | ].
  unfold after_calls in *. cbn [fold_left]. apply IH.
  destruct Hs as (x & y & d & sn & cs & ->).
  destruct c as [a | dx dy]; cbn [apply_call].
  - rewrite zoom_fin. repeat eexists.
  - unfold ClipAdjustment.move. cbn. repeat eexists.
Qed.

Lemma after_calls_nan_ratios (calls : list adjust_call) (s : ClipAdjustment.t) :
  nan_ratios s -> nan_ratios (after_calls calls s).
Proof.
  revert s. induction calls as [ | c calls IH]; intros s Hs; [exact Hs | ].
  unfold after_calls in *. cbn [fold_left]. apply IH.
  destruct c; exact Hs.
Qed.

Lemma center_kept_fin (a : R) (s : ClipAdjustment.t) :
  fin_adjustment s ->
  center (ClipAdjustment.zoom (Fin a) s) = center s /\
  exists cx cy : R, center s = (Fin cx, Fin cy).
Proof.
  intros (x & y & d & sn & cs & ->). rewrite zoom_fin, !center_fin. split.
  - f_equal; apply f_equal; field.
  - eexists. eexists. reflexivity.
Qed.

Lemma center_kept_nan (a : num) (s : ClipAdjustment.t) :
  nan_ratios s -> center (ClipAdjustment.zoom a s) = center s.
Proof.
  destruct s as [x y d sn cs]. intros [Hs Hc].
  cbn [ClipAdjustment._sin ClipAdjustment._cos] in Hs, Hc. subst sn cs.
  unfold ClipAdjustment.zoom.
  cbn [ClipAdjustment._x ClipAdjustment._y ClipAdjustment._hyp ClipAdjustment._sin
       ClipAdjustment._cos].
  rewrite !center_nan_ratios. reflexivity.
Qed.

(** C3.  A [ClipAdjustment] is constructed at a position [(x, y)] from a width
    [w] and a height [h] that are not both zero, and then zoomed and moved any
    number of times.  For every zoom amount [a], the centre
    [(x + width()/2, y + height()/2)] after [zoom(a)] is the centre before it.
    The centre is a point with finite coordinates whenever the integers that
    the constructor reads off [w] and [h] with [parseInt] are not both zero. *)
Theorem zoom_keeps_center (x y w h a : R) (calls : list adjust_call) :
  ~ (w = 0 /\ h = 0) ->
  let s := after_calls calls
             (ClipAdjustment.new (Fin x) (Fin y) (VNumber (Fin w)) (VNumber (Fin h))) in
  center (ClipAdjustment.zoom (Fin a) s) = center s /\
  (parsed w <> 0 \/ parsed h <> 0 ->
   exists cx cy : R, center s = (Fin cx, Fin cy)).
Proof.
  intros _ s. subst s.
  destruct (trunc_pair_cases w h) as [Hnz | [HW HH]].
  - rewrite new_adjustment_fin by assumption.
    match goal with
    | |- context [after_calls calls ?s0] =>
        destruct (center_kept_fin a (after_calls calls s0)) as [E F]
    end.
    { apply after_calls_fin. repeat eexists. }
    split; [exact E | intros _; exact F].
  - rewrite new_adjustment_degenerate by assumption. split.
    + apply center_kept_nan, after_calls_nan_ratios. split; reflexivity.
    + intros [N | N]; contradiction.
Qed.

Lemma zoom_keeps_center_witness :
  ~ (3 = 0 /\ 4 = 0) /\
  let s := after_calls [CallZoom 2; CallMove 5 (-1)]
             (ClipAdjustment.new (Fin 1) (Fin 2) (VNumber (Fin 3)) (VNumber (Fin 4))) in
  center (ClipAdjustment.zoom (Fin 7) s) = center s.
Proof.
  assert (H : ~ (3 = 0 /\ 4 = 0)) by (intros [E _]; lra).
  split; [exact H | ].
  apply (zoom_keeps_center 1 2 3 4 7 [CallZoom 2; CallMove 5 (-1)] H).
Defined.

(** [zoom] never writes the two ratios. *)
Lemma zoom_keeps_ratios (a : num) (s : ClipAdjustment.t) :
  ClipAdjustment._sin (ClipAdjustment.zoom a s) = ClipAdjustment._sin s /\
  ClipAdjustment._cos (ClipAdjustment.zoom a s) = ClipAdjustment._cos s.
Proof. split; reflexivity. Qed.

Lemma zooms_keep_ratios (l : list R) (s : ClipAdjustment.t) :
  ClipAdjustment._sin (zooms l s) = ClipAdjustment._sin s /\
  ClipAdjustment._cos (zooms l s) = ClipAdjustment._cos s.
Proof.
  revert s. induction l as [ | a l IH]; intros s; [split; reflexivity | ].
  unfold zooms in *. cbn [fold_left].
  destruct (IH (ClipAdjustment.zoom (Fin a) s)) as [Hs Hc].
  rewrite Hs, Hc. apply zoom_keeps_ratios.
Qed.

(** Finite amounts keep a finite diagonal finite. *)
Lemma zooms_hyp_fin (l : list R) (s : ClipAdjustment.t) :
  is_fin (ClipAdjustment._hyp s) -> is_fin (ClipAdjustment._hyp (zooms l s)).
Proof.
  revert s. induction l as [ | a l IH]; intros s Hs; [exact Hs | ].
  unfold zooms in *. cbn [fold_left]. apply IH.
  destruct Hs as [d Hd]. exists (d + a).
  unfold ClipAdjustment.zoom. cbn [ClipAdjustment._hyp]. rewrite Hd. reflexivity.
Qed.

(** The ratio of the sides of an adjustment with finite ratios and diagonal. *)
Lemma side_ratio_fin (x y : num) (d s c : R) :
  let st := ClipAdjustment.mk x y (Fin d) (Fin s) (Fin c) in
  c <> 0 ->
  ClipAdjustment.getWidth st <> Fin 0 ->
  ClipAdjustment.getHeight st <> Fin 0 ->
  (ClipAdjustment.getWidth st / ClipAdjustment.getHeight st)%js = Fin (s / c).
Proof.
  intros st Hc. unfold st, ClipAdjustment.getWidth, ClipAdjustment.getHeight.
  cbn [ClipAdjustment._hyp ClipAdjustment._sin ClipAdjustment._cos num_mul].
  intros Hw Hh.
  assert (Hd : d <> 0) by (intros ->; apply Hh; f_equal; ring).
  rewrite num_div_fin by (apply Rmult_integral_contrapositive_currified; assumption).
  f_equal. field. split; assumption.
Qed.

(** After finitely many finite zooms of an adjustment constructed from sizes
    of which [parseInt] reads positive integers [W] and [H], the sides are in
    the ratio [W/H] whenever both are nonzero. *)
Lemma side_ratio_after_zooms (x y : num) (w h : R) (amounts : list R) :
  let W := parsed w in
  let H := parsed h in
  0 < W -> 0 < H ->
  let s := zooms amounts (ClipAdjustment.new x y (VNumber (Fin w)) (VNumber (Fin h))) in
  ClipAdjustment.getWidth s <> Fin 0 ->
  ClipAdjustment.getHeight s <> Fin 0 ->
  (ClipAdjustment.getWidth s / ClipAdjustment.getHeight s)%js = Fin (W / H).
Proof.
  intros W H HW HH s.
  set (s0 := ClipAdjustment.new x y (VNumber (Fin w)) (VNumber (Fin h))) in *.
  destruct (zooms_keep_ratios amounts s0) as [Hs Hc]. fold s in Hs, Hc.
  assert (Hnz : W <> 0 \/ H <> 0) by (left; lra).
  pose proof (diag_pos W H Hnz) as Hd.
  assert (E0 : s0 = ClipAdjustment.mk x y (Fin (diag W H)) (Fin (W / diag W H))
                                      (Fin (H / diag W H)))
    by (apply new_adjustment_fin; exact Hnz).
  destruct (zooms_hyp_fin amounts s0) as [d Ed].
  { rewrite E0. eexists. reflexivity. }
  fold s in Ed. rewrite E0 in Hs, Hc. cbn [ClipAdjustment._sin ClipAdjustment._cos] in Hs, Hc.
  destruct s as [sx sy sd ss sc]. cbn [ClipAdjustment._hyp ClipAdjustment._sin ClipAdjustment._cos] in *.
  subst sd ss sc. intros Hw Hh.
  rewrite side_ratio_fin; try assumption.
  - f_equal. field. lra.
  - apply cos_ratio_nonzero. lra.
Qed.

(** C4, as amended.  In exact arithmetic (real numbers in place of binary64:
    no rounding and no overflow), a [ClipAdjustment] is constructed from a
    finite width [w] and height [h] of which the integers [W = parseInt(w)]
    and [H = parseInt(h)] are positive.  After any sequence of [zoom] calls
    with finite amounts the stored [sin] and [cos] are the ones of the
    construction, and [width()/height()] is [W/H] whenever both sides are
    nonzero. *)
Theorem zooms_keep_aspect_ratio (x y : num) (w h : R) (amounts : list R) :
  let W := parsed w in
  let H := parsed h in
  0 < W -> 0 < H ->
  let s0 := ClipAdjustment.new x y (VNumber (Fin w)) (VNumber (Fin h)) in
  let s := zooms amounts s0 in
  ClipAdjustment._sin s = ClipAdjustment._sin s0 /\
  ClipAdjustment._cos s = ClipAdjustment._cos s0 /\
  (ClipAdjustment.getWidth s <> Fin 0 ->
   ClipAdjustment.getHeight s <> Fin 0 ->
   (ClipAdjustment.getWidth s / ClipAdjustment.getHeight s)%js = Fin (W / H)).
Proof.
  intros W H HW HH s0 s.
  destruct (zooms_keep_ratios amounts s0) as [Hs Hc].
  split; [exact Hs | split; [exact Hc | ]].
  apply side_ratio_after_zooms; assumption.
Qed.

Lemma zooms_keep_aspect_ratio_witness :
  (0 < parsed 400 /\ 0 < parsed 200) /\
  let s0 := ClipAdjustment.new (Fin 0) (Fin 0) (VNumber (Fin 400)) (VNumber (Fin 200)) in
  let s := zooms [10; -3] s0 in
  ClipAdjustment._sin s = ClipAdjustment._sin s0 /\
  ClipAdjustment._cos s = ClipAdjustment._cos s0 /\
  (ClipAdjustment.getWidth s <> Fin 0 ->
   ClipAdjustment.getHeight s <> Fin 0 ->
   (ClipAdjustment.getWidth s / ClipAdjustment.getHeight s)%js =
   Fin (parsed 400 / parsed 200)).
Proof.
  assert (H4 : 0 < parsed 400) by (rewrite parsed_IZR by lia; lra).
  assert (H2 : 0 < parsed 200) by (rewrite parsed_IZR by lia; lra).
  split; [split; assumption | ].
  exact (zooms_keep_aspect_ratio (Fin 0) (Fin 0) 400 200 [10; -3] H4 H2).
Defined.

(** In exact arithmetic, for whole numbers of pixels below 1e21 the ratio
    is the one of the arguments. *)
Corollary aspect_ratio_of_whole_sizes (x y : num) (w h : Z) (amounts : list R) :
  (0 < w < 1000000000000000000000)%Z -> (0 < h < 1000000000000000000000)%Z ->
  let s := zooms amounts
             (ClipAdjustment.new x y (VNumber (Fin (IZR w))) (VNumber (Fin (IZR h)))) in
  ClipAdjustment.getWidth s <> Fin 0 ->
  ClipAdjustment.getHeight s <> Fin 0 ->
  (ClipAdjustment.getWidth s / ClipAdjustment.getHeight s)%js = Fin (IZR w / IZR h).
Proof.
  intros Hw Hh s Hsw Hsh.
  pose proof (side_ratio_after_zooms x y (IZR w) (IZR h) amounts) as T.
  rewrite !parsed_IZR in T by lia. cbv zeta in T.
  apply T; try assumption; apply IZR_lt; lia.
Qed.

Lemma parsed_three_halves : parsed (3 / 2) = 1.
Proof.
  rewrite parsed_positional by (right; rewrite Rabs_pos_eq; lra).
  unfold Ztrunc. destruct (Rlt_dec (3 / 2) 0) as [L | _]; [lra | ].
  rewrite (Zfloor_eq 1) by lra. reflexivity.
Qed.

Lemma parsed_five_halves : parsed (5 / 2) = 2.
Proof.
  rewrite parsed_positional by (right; rewrite Rabs_pos_eq; lra).
  unfold Ztrunc. destruct (Rlt_dec (5 / 2) 0) as [L | _]; [lra | ].
  rewrite (Zfloor_eq 2) by lra. reflexivity.
Qed.

(** Sizes that are not whole numbers are truncated, in exact arithmetic
    too: constructed from the width 1.5 and the height 2.5, before any zoom,
    both sides are nonzero and [width()/height()] is 1/2, not 1.5/2.5. *)
Lemma aspect_ratio_of_fractional_size :
  let s := zooms [] (ClipAdjustment.new (Fin 0) (Fin 0)
                       (VNumber (Fin (3 / 2))) (VNumber (Fin (5 / 2)))) in
  0 < 3 / 2 /\ 0 < 5 / 2 /\
  ClipAdjustment.getWidth s <> Fin 0 /\
  ClipAdjustment.getHeight s <> Fin 0 /\
  (ClipAdjustment.getWidth s / ClipAdjustment.getHeight s)%js = Fin (1 / 2) /\
  (ClipAdjustment.getWidth s / ClipAdjustment.getHeight s)%js <> Fin ((3 / 2) / (5 / 2)).
Proof.
  cbv zeta. unfold zooms. cbn [fold_left].
  rewrite new_adjustment_fin by (rewrite parsed_three_halves; left; lra).
  rewrite parsed_three_halves, parsed_five_halves.
  pose proof (diag_pos 1 2 (or_introl R1_neq_R0)) as Hd.
  assert (Hw : ClipAdjustment.getWidth
                 (ClipAdjustment.mk (Fin 0) (Fin 0) (Fin (diag 1 2))
                    (Fin (1 / diag 1 2)) (Fin (2 / diag 1 2))) = Fin 1).
  { unfold ClipAdjustment.getWidth. cbn [ClipAdjustment._sin ClipAdjustment._hyp num_mul].
    f_equal. field. lra. }
  assert (Hh : ClipAdjustment.getHeight
                 (ClipAdjustment.mk (Fin 0) (Fin 0) (Fin (diag 1 2))
                    (Fin (1 / diag 1 2)) (Fin (2 / diag 1 2))) = Fin 2).
  { unfold ClipAdjustment.getHeight. cbn [ClipAdjustment._cos ClipAdjustment._hyp num_mul].
    f_equal. field. lra. }
  rewrite Hw, Hh. rewrite num_div_fin by lra.
  repeat split; try lra; try (intros E; injection E; lra).
Qed.

(** C7, as amended.  In exact arithmetic (real numbers in place of binary64:
    no rounding and no overflow), from any adjustment and for any two amounts
    [a] and [b], [zoom(a)] followed by [zoom(b)] ends with the same diagonal,
    hence the same width and height, as the single call [zoom(a + b)]. *)
Theorem zoom_additive_size (s : ClipAdjustment.t) (a b : num) :
  let s1 := ClipAdjustment.zoom b (ClipAdjustment.zoom a s) in
  let s2 := ClipAdjustment.zoom (a + b)%js s in
  ClipAdjustment._hyp s1 = ClipAdjustment._hyp s2 /\
  ClipAdjustment.getWidth s1 = ClipAdjustment.getWidth s2 /\
  ClipAdjustment.getHeight s1 = ClipAdjustment.getHeight s2.
Proof.
  intros s1 s2.
  assert (E : ClipAdjustment._hyp s1 = ClipAdjustment._hyp s2).
  { unfold s1, s2, ClipAdjustment.zoom. cbn [ClipAdjustment._hyp].
    symmetry. apply num_add_assoc. }
  unfold ClipAdjustment.getWidth, ClipAdjustment.getHeight. rewrite E.
  repeat split; reflexivity.
Qed.

(** ** Move *)

(** C8.  For every plotter and offsets [dx] and [dy], the rectangle that
    [move(dx, dy)] returns has the left of the snapshot before the call plus
    [dx], its top plus [dy], and its width and height; the image rectangle
    returned with it is the one of before the call, and the stored image and
    canvas sizes and the multiplier are not written. *)
Theorem move_is_translation (this : ImagePlotter.t) (dx dy : num) :
  let before := ClipAdjustment.getState (ImagePlotter._state this) in
  let plot := fst (ImagePlotter.move dx dy this) in
  let after := snd (ImagePlotter.move dx dy this) in
  Clip.left (ImagePlot.canvas plot) = (Clip.left before + dx)%js /\
  Clip.top (ImagePlot.canvas plot) = (Clip.top before + dy)%js /\
  Clip.width (ImagePlot.canvas plot) = Clip.width before /\
  Clip.height (ImagePlot.canvas plot) = Clip.height before /\
  ImagePlot.image plot = ImagePlotter.image_clip this /\
  ImagePlotter.image_clip after = ImagePlotter.image_clip this /\
  ImagePlot.canvas plot = ClipAdjustment.getState (ImagePlotter._state after) /\
  ImagePlotter._image after = ImagePlotter._image this /\
  ImagePlotter._canvas after = ImagePlotter._canvas this /\
  ImagePlotter.zoom_multiplier after = ImagePlotter.zoom_multiplier this.
Proof.
  cbv zeta. unfold ImagePlotter.move. cbn [fst snd].
  repeat split; reflexivity.
Qed.

(** On finite numbers the translation is the addition of real numbers. *)
Lemma translation_of_finite_plotter (m : num) (x y d s c : R) (il it : num) (iw ih : R)
                              (cl ct : num) (cw ch dx dy : R) :
  ImagePlot.canvas
    (fst (ImagePlotter.move (Fin dx) (Fin dy)
            (fin_plotter m x y d s c il it iw ih cl ct cw ch))) =
  Clip.new (Fin (x + dx)) (Fin (y + dy)) (Fin (s * d)) (Fin (c * d)).
Proof. reflexivity. Qed.

(** ** Square images *)

Lemma Math_min_self (a : num) : (a == a)%js = true -> (Math_min a a == a)%js = true.
Proof.
  destruct a; simpl; try discriminate; try reflexivity.
  intros _. unfold Math_min, num_ltb.
  destruct (Rlt_dec r r); apply num_eqb_refl_fin.
Qed.

(** C9.  On a plotter whose image width equals its image height, [cover()]
    and [contain()] both take the width branch: they return the same plot and
    leave the same plotter. *)
Theorem square_cover_is_contain (this : ImagePlotter.t) :
  (Clip.width (ImagePlotter._image this) == Clip.height (ImagePlotter._image this))%js = true ->
  ImagePlotter.cover this = fit_width_branch this /\
  ImagePlotter.contain this = fit_width_branch this /\
  ImagePlotter.cover this = ImagePlotter.contain this.
Proof.
  intros Heq. pose proof (num_eqb_eq _ _ Heq) as E.
  assert (Hmin : (Math_min (Clip.width (ImagePlotter._image this))
                           (Clip.height (ImagePlotter._image this))
                  == Clip.width (ImagePlotter._image this))%js = true).
  { rewrite <- E in *. apply Math_min_self. assumption. }
  assert (Hmax : (Math_max (Clip.width (ImagePlotter._image this))
                           (Clip.height (ImagePlotter._image this))
                  == Clip.width (ImagePlotter._image this))%js = true).
  { rewrite <- E in *. rewrite <- Math_min_max_same. apply Math_min_self. assumption. }
  assert (C : ImagePlotter.cover this = fit_width_branch this).
  { unfold ImagePlotter.cover, fit_width_branch, ImagePlotter.centerFullSize.
    cbn [snd ImagePlotter.set_state ImagePlotter._image ImagePlotter._canvas
         ImagePlotter._state]. rewrite Hmin. reflexivity. }
  assert (K : ImagePlotter.contain this = fit_width_branch this).
  { unfold ImagePlotter.contain, fit_width_branch, ImagePlotter.centerFullSize.
    cbn [snd ImagePlotter.set_state ImagePlotter._image ImagePlotter._canvas
         ImagePlotter._state]. rewrite Hmax. reflexivity. }
  split; [exact C | split; [exact K | congruence]].
Qed.

Lemma square_cover_is_contain_witness :
  let this := ImagePlotter.new (Fin 100) (Fin 100) (Fin 300) (Fin 200) opts_cover in
  (Clip.width (ImagePlotter._image this) == Clip.height (ImagePlotter._image this))%js = true /\
  ImagePlotter.cover this = ImagePlotter.contain this.
Proof.
  cbv zeta.
  assert (H : (Clip.width (ImagePlotter._image
                 (ImagePlotter.new (Fin 100) (Fin 100) (Fin 300) (Fin 200) opts_cover))
               == Clip.height (ImagePlotter._image
                 (ImagePlotter.new (Fin 100) (Fin 100) (Fin 300) (Fin 200) opts_cover)))%js
              = true) by apply num_eqb_refl_fin.
  split; [exact H | ].
  apply (square_cover_is_contain
           (ImagePlotter.new (Fin 100) (Fin 100) (Fin 300) (Fin 200) opts_cover) H).
Defined.

(** ** An invariant of the states a plotter can be in *)

Lemma Rsign_inf_zero : Rsign_inf 0 = NaN.
Proof.
  unfold Rsign_inf. destruct (Rlt_dec 0 0) as [L | _]; [lra | reflexivity].
Qed.

Lemma num_add_nan_r (a : num) : (a + NaN)%js = NaN.
Proof. destruct a; reflexivity. Qed.

Lemma num_div_nan_r (a : num) : (a / NaN)%js = NaN.
Proof. destruct a; reflexivity. Qed.

Lemma settled_zoom (a : num) (s : ClipAdjustment.t) :
  settled s -> settled (ClipAdjustment.zoom a s).
Proof.
  intros [Hfin | [Hx Hy]]; [left; exact Hfin | right].
  unfold ClipAdjustment.zoom. cbn [ClipAdjustment._x ClipAdjustment._y].
  rewrite Hx, Hy. split; reflexivity.
Qed.

Lemma settled_move (dx dy : num) (s : ClipAdjustment.t) :
  settled s -> settled (ClipAdjustment.move dx dy s).
Proof.
  intros [Hfin | [Hx Hy]]; [left; exact Hfin | right].
  unfold ClipAdjustment.move. cbn [ClipAdjustment._x ClipAdjustment._y].
  rewrite Hx, Hy. split; reflexivity.
Qed.

(** With [NaN] ratios the zoom of either fit puts the position at [NaN]. *)
Lemma zoom_nan_ratios (x y d : num) (amount : num) :
  settled (ClipAdjustment.zoom (- (d - amount / NaN))%js (ClipAdjustment.mk x y d NaN NaN)).
Proof.
  assert (E : (- (d - amount / NaN))%js = NaN).
  { rewrite num_div_nan_r. unfold num_sub. cbn [num_neg].
    rewrite num_add_nan_r. reflexivity. }
  rewrite E. right. unfold ClipAdjustment.zoom, num_sub.
  cbn [ClipAdjustment._x ClipAdjustment._y ClipAdjustment._sin ClipAdjustment._cos
       num_mul num_neg].
  rewrite !num_add_nan_r. split; reflexivity.
Qed.

(** A fresh adjustment is settled after the zoom of either fit. *)
Lemma settled_fit_fresh (w h : R) (dx dy cw : num) (by_width : bool) :
  let s := ClipAdjustment.move dx dy
             (ClipAdjustment.new (Fin 0) (Fin 0) (VNumber (Fin w)) (VNumber (Fin h))) in
  settled (ClipAdjustment.zoom
             (- (if by_width then ClipAdjustment.calcHypDifferenceByWidth cw s
                 else ClipAdjustment.calcHypDifferenceByHeight cw s))%js s).
Proof.
  intros s. subst s.
  destruct (trunc_pair_cases w h) as [Hnz | [HW HH]].
  - apply settled_zoom, settled_move. rewrite new_adjustment_fin by assumption.
    left. split; eexists; reflexivity.
  - rewrite new_adjustment_degenerate by assumption.
    destruct by_width; apply zoom_nan_ratios.
Qed.

Lemma inv_centerFullSize (this : ImagePlotter.t) :
  plotter_inv this -> plotter_inv (snd (ImagePlotter.centerFullSize this)).
Proof.
  intros [Hm Hs]. split; [exact Hm | ]. apply settled_move. exact Hs.
Qed.

Lemma inv_cover (this : ImagePlotter.t) :
  plotter_inv this -> plotter_inv (snd (ImagePlotter.cover this)).
Proof.
  intros [Hm Hs]. split; [exact Hm | ].
  unfold ImagePlotter.cover, ImagePlotter.centerFullSize.
  cbn [snd ImagePlotter.set_state ImagePlotter._state ImagePlotter._image
       ImagePlotter._canvas].
  destruct (num_eqb _ _); apply settled_zoom, settled_move; exact Hs.
Qed.

Lemma inv_contain (this : ImagePlotter.t) :
  plotter_inv this -> plotter_inv (snd (ImagePlotter.contain this)).
Proof.
  intros [Hm Hs]. split; [exact Hm | ].
  unfold ImagePlotter.contain, ImagePlotter.centerFullSize.
  cbn [snd ImagePlotter.set_state ImagePlotter._state ImagePlotter._image
       ImagePlotter._canvas].
  destruct (num_eqb _ _); apply settled_zoom, settled_move; exact Hs.
Qed.

Lemma inv_init (this : ImagePlotter.t) (iw ih cw ch : R) (o : ImagePlotter.init_opts) :
  is_fin (ImagePlotter.zoom_multiplier this) ->
  plotter_inv (snd (ImagePlotter.init (Fin iw) (Fin ih) (Fin cw) (Fin ch) o this)).
Proof.
  intros Hm. unfold ImagePlotter.init.
  assert (Hcover : forall p,
    ImagePlotter.zoom_multiplier p = ImagePlotter.zoom_multiplier this ->
    ImagePlotter._state p =
      ClipAdjustment.new (Fin 0) (Fin 0) (VNumber (Fin iw)) (VNumber (Fin ih)) ->
    plotter_inv (snd (ImagePlotter.cover p)) /\ plotter_inv (snd (ImagePlotter.contain p))).
  { intros p Em Es. split; (split; [cbn; rewrite Em; exact Hm | ]).
    - unfold ImagePlotter.cover, ImagePlotter.centerFullSize.
      cbn [snd ImagePlotter.set_state ImagePlotter._state ImagePlotter._image
           ImagePlotter._canvas]. rewrite Es.
      destruct (num_eqb _ _).
      + apply (settled_fit_fresh iw ih _ _ _ true).
      + apply (settled_fit_fresh iw ih _ _ _ false).
    - unfold ImagePlotter.contain, ImagePlotter.centerFullSize.
      cbn [snd ImagePlotter.set_state ImagePlotter._state ImagePlotter._image
           ImagePlotter._canvas]. rewrite Es.
      destruct (num_eqb _ _).
      + apply (settled_fit_fresh iw ih _ _ _ true).
      + apply (settled_fit_fresh iw ih _ _ _ false). }
  destruct (ImagePlotter.orientation o) as [s | ]; [destruct (String.eqb s "contain") | ];
    apply Hcover; reflexivity.
Qed.

Lemma opt_or_fin (m : option R) (d : num) : is_fin d -> is_fin (opt_or (option_map Fin m) d).
Proof.
  intros Hd. destruct m as [r | ]; [ | exact Hd].
  cbn [option_map opt_or]. unfold num_or. destruct (num_truthy (Fin r)); [ | exact Hd].
  exists r. reflexivity.
Qed.

(** Every state a plotter can be in has a finite multiplier and a settled
    adjustment. *)
Lemma reachable_inv (this : ImagePlotter.t) : reachable this -> plotter_inv this.
Proof.
  induction 1 as [iw ih cw ch o | this iw ih cw ch o _ IH | this _ IH | this _ IH
                 | this _ IH | this dx dy _ IH | this depth m _ IH | this m _ IH].
  - apply inv_init. exists 1. reflexivity.
  - apply inv_init. apply IH.
  - apply inv_centerFullSize, IH.
  - apply inv_cover, IH.
  - apply inv_contain, IH.
  - destruct IH as [Hm Hs]. split; [exact Hm | ]. apply settled_move, Hs.
  - destruct IH as [Hm Hs]. split; [exact Hm | ]. apply settled_zoom, Hs.
  - destruct IH as [Hm Hs]. split; [exists m; reflexivity | exact Hs].
Qed.

(** A zoom by zero writes nothing on a settled adjustment. *)
Lemma zoom_zero_settled (z : R) (s : ClipAdjustment.t) :
  z = 0 -> settled s -> ClipAdjustment.zoom (Fin z) s = s.
Proof.
  intros -> Hs. destruct s as [x y d sn cs]. unfold ClipAdjustment.zoom.
  cbn [ClipAdjustment._x ClipAdjustment._y ClipAdjustment._hyp ClipAdjustment._sin
       ClipAdjustment._cos num_mul].
  rewrite (num_add_zero_r d 0) by reflexivity.
  destruct Hs as [[[s' Es] [c' Ec]] | [Hx Hy]];
    cbn [ClipAdjustment._x ClipAdjustment._y ClipAdjustment._sin ClipAdjustment._cos] in *.
  - subst sn cs. cbn [num_mul]. rewrite !num_sub_zero_r by ring. reflexivity.
  - subst x y. reflexivity.
Qed.

(** The depth [zoom] works with is zero when [zoom_depth] is absent, does not
    parse, or parses as zero. *)
Lemma depth_coerces_to_zero (depth : value) :
  depth = VUndefined \/ parseInt depth = NaN \/ parseInt depth = Fin 0 ->
  num_or (parseInt depth) (Fin 0) = Fin 0.
Proof.
  intros [-> | [E | E]]; [reflexivity | rewrite E; reflexivity | rewrite E].
  unfold num_or, num_truthy. destruct (Req_dec_T 0 0); reflexivity.
Qed.

(** ** Zoom requests without a usable depth *)

(** An adjustment constructed from a size that is not finite has no diagonal
    and no ratios. *)
Lemma new_adjustment_not_finite (x y iw ih : num) :
  ~ is_fin iw \/ ~ is_fin ih ->
  ClipAdjustment.new x y (VNumber iw) (VNumber ih) = ClipAdjustment.mk x y NaN NaN NaN.
Proof.
  intros H.
  destruct iw as [w | | | ], ih as [h | | | ]; try reflexivity.
  destruct H as [H | H]; exfalso; apply H; eexists; reflexivity.
Qed.

(** The adjustment of any sizes is settled after the zoom of either fit. *)
Lemma settled_fit_any (iw ih dx dy cw : num) (by_width : bool) :
  let s := ClipAdjustment.move dx dy
             (ClipAdjustment.new (Fin 0) (Fin 0) (VNumber iw) (VNumber ih)) in
  settled (ClipAdjustment.zoom
             (- (if by_width then ClipAdjustment.calcHypDifferenceByWidth cw s
                 else ClipAdjustment.calcHypDifferenceByHeight cw s))%js s).
Proof.
  intros s. subst s.
  assert (F : (is_fin iw /\ is_fin ih) \/ (~ is_fin iw \/ ~ is_fin ih)).
  { destruct iw as [w | | | ], ih as [h | | | ];
      try (left; split; eexists; reflexivity);
      try (right; left; intros [r E]; discriminate E);
      right; right; intros [r E]; discriminate E. }
  destruct F as [[[w ->] [h ->]] | N].
  - apply settled_fit_fresh.
  - rewrite new_adjustment_not_finite by exact N.
    destruct by_width; apply zoom_nan_ratios.
Qed.

Lemma settled_init (this : ImagePlotter.t) (iw ih cw ch : num) (o : ImagePlotter.init_opts) :
  settled (ImagePlotter._state (snd (ImagePlotter.init iw ih cw ch o this))).
Proof.
  unfold ImagePlotter.init.
  assert (Hfit : forall p,
    ImagePlotter._state p = ClipAdjustment.new (Fin 0) (Fin 0) (VNumber iw) (VNumber ih) ->
    settled (ImagePlotter._state (snd (ImagePlotter.cover p))) /\
    settled (ImagePlotter._state (snd (ImagePlotter.contain p)))).
  { intros p Es. split.
    - unfold ImagePlotter.cover, ImagePlotter.centerFullSize.
      cbn [snd ImagePlotter.set_state ImagePlotter._state ImagePlotter._image
           ImagePlotter._canvas]. rewrite Es.
      destruct (num_eqb _ _).
      + apply (settled_fit_any iw ih _ _ _ true).
      + apply (settled_fit_any iw ih _ _ _ false).
    - unfold ImagePlotter.contain, ImagePlotter.centerFullSize.
      cbn [snd ImagePlotter.set_state ImagePlotter._state ImagePlotter._image
           ImagePlotter._canvas]. rewrite Es.
      destruct (num_eqb _ _).
      + apply (settled_fit_any iw ih _ _ _ true).
      + apply (settled_fit_any iw ih _ _ _ false). }
  destruct (ImagePlotter.orientation o) as [s | ]; [destruct (String.eqb s "contain") | ];
    apply Hfit; reflexivity.
Qed.

(** In every state of a plotter the adjustment is settled, whatever numbers
    the calls were made with. *)
Lemma plotter_state_settled (this : ImagePlotter.t) :
  plotter_state this -> settled (ImagePlotter._state this).
Proof.
  induction 1 as [iw ih cw ch o | this iw ih cw ch o _ _ | this _ IH | this _ IH
                 | this _ IH | this dx dy _ IH | this opts_ _ IH | this m _ IH].
  - apply settled_init.
  - apply settled_init.
  - apply settled_move, IH.
  - unfold ImagePlotter.cover, ImagePlotter.centerFullSize.
    cbn [snd ImagePlotter.set_state ImagePlotter._state ImagePlotter._image
         ImagePlotter._canvas].
    destruct (num_eqb _ _); apply settled_zoom, settled_move; exact IH.
  - unfold ImagePlotter.contain, ImagePlotter.centerFullSize.
    cbn [snd ImagePlotter.set_state ImagePlotter._state ImagePlotter._image
         ImagePlotter._canvas].
    destruct (num_eqb _ _); apply settled_zoom, settled_move; exact IH.
  - apply settled_move, IH.
  - apply settled_zoom, IH.
  - exact IH.
Qed.

(** [opts_.zoom_multiplier || this.zoom_multiplier] by cases. *)
Lemma mult_is_effective (opts_ : ImagePlotter.zoom_opts) (this : ImagePlotter.t) :
  opt_or (ImagePlotter.opt_zoom_multiplier opts_) (ImagePlotter.zoom_multiplier this) =
  effective_multiplier opts_ this.
Proof.
  unfold effective_multiplier, opt_or, num_or, num_truthy.
  destruct (ImagePlotter.opt_zoom_multiplier opts_) as [[r | | | ] | ]; try reflexivity.
  destruct (Req_dec_T r 0); reflexivity.
Qed.

(** A multiplier that is not finite, times the depth zero, is [NaN]. *)
Lemma not_finite_times_zero (m : num) : ~ is_fin m -> (m * Fin 0)%js = NaN.
Proof.
  intros N. destruct m as [r | | | ]; cbn [num_mul].
  - exfalso. apply N. eexists. reflexivity.
  - apply Rsign_inf_zero.
  - replace (- 0) with 0 by ring. apply Rsign_inf_zero.
  - reflexivity.
Qed.

(** A zoom by [NaN] leaves a rectangle of four [NaN]. *)
Lemma zoom_nan_clip (s : ClipAdjustment.t) :
  ClipAdjustment.getState (ClipAdjustment.zoom NaN s) = nan_clip.
Proof.
  destruct s as [x y d sn cs].
  unfold ClipAdjustment.getState, ClipAdjustment.getX, ClipAdjustment.getY,
    ClipAdjustment.getWidth, ClipAdjustment.getHeight, ClipAdjustment.zoom, num_sub.
  cbn [ClipAdjustment._x ClipAdjustment._y ClipAdjustment._hyp ClipAdjustment._sin
       ClipAdjustment._cos num_mul num_neg].
  rewrite !num_add_nan_r.
  destruct sn, cs; reflexivity.
Qed.

(** ** Zoom requests without a usable depth *)

(** C10, as amended.  In every state of a plotter (the constructor followed
    by any calls of [init], [centerFullSize], [cover], [contain], [move] and
    [zoom] and any assignments to [zoom_multiplier], with any numbers), let
    [zoom] be called with a [zoom_depth] that is absent, does not parse as an
    integer, or parses as zero, so that the depth is 0.  When the multiplier
    the call works with (the one of the call if it is neither zero nor [NaN],
    the field of the plotter otherwise) is finite, the call leaves the plotter
    as it was, position and diagonal included, and returns the image
    rectangle with the snapshot of the adjustment of before the call.  When
    that multiplier is an infinity or [NaN], the amount is [NaN] and the
    rectangle returned is four [NaN]. *)
Theorem zoom_without_depth_is_identity
        (this : ImagePlotter.t) (opts_ : ImagePlotter.zoom_opts) :
  plotter_state this ->
  ImagePlotter.zoom_depth opts_ = VUndefined \/
  parseInt (ImagePlotter.zoom_depth opts_) = NaN \/
  parseInt (ImagePlotter.zoom_depth opts_) = Fin 0 ->
  (is_fin (effective_multiplier opts_ this) ->
   ImagePlotter.zoom opts_ this =
   (ImagePlot.mk (ImagePlotter.image_clip this)
                 (ClipAdjustment.getState (ImagePlotter._state this)),
    this)) /\
  (~ is_fin (effective_multiplier opts_ this) ->
   ImagePlot.canvas (fst (ImagePlotter.zoom opts_ this)) = nan_clip).
Proof.
  intros Hp Hd. pose proof (plotter_state_settled this Hp) as Hs.
  unfold ImagePlotter.zoom.
  rewrite depth_coerces_to_zero by exact Hd.
  rewrite mult_is_effective.
  split.
  - intros [k Ek]. rewrite Ek. cbn [num_mul].
    rewrite zoom_zero_settled by (try ring; exact Hs).
    destruct this; reflexivity.
  - intros N. rewrite not_finite_times_zero by exact N.
    cbn [fst ImagePlot.canvas]. apply zoom_nan_clip.
Qed.

Lemma zoom_without_depth_is_identity_witness :
  let this := ImagePlotter.new (Fin 400) (Fin 200) (Fin 100) (Fin 100) opts_cover in
  let opts_ := zoom_call (VString "deep") (Some 3) in
  (plotter_state this /\
   (ImagePlotter.zoom_depth opts_ = VUndefined \/
    parseInt (ImagePlotter.zoom_depth opts_) = NaN \/
    parseInt (ImagePlotter.zoom_depth opts_) = Fin 0)) /\
  ImagePlotter.zoom opts_ this =
  (ImagePlot.mk (ImagePlotter.image_clip this)
                (ClipAdjustment.getState (ImagePlotter._state this)),
   this).
Proof.
  cbv zeta.
  assert (Hp : plotter_state
                 (ImagePlotter.new (Fin 400) (Fin 200) (Fin 100) (Fin 100) opts_cover))
    by apply state_new.
  assert (Hd : ImagePlotter.zoom_depth (zoom_call (VString "deep") (Some 3)) = VUndefined \/
               parseInt (ImagePlotter.zoom_depth (zoom_call (VString "deep") (Some 3))) = NaN \/
               parseInt (ImagePlotter.zoom_depth (zoom_call (VString "deep") (Some 3))) = Fin 0)
    by (right; left; reflexivity).
  split; [split; assumption | ].
  apply (zoom_without_depth_is_identity _ _ Hp Hd).
  exists 3. unfold effective_multiplier, zoom_call.
  cbn [ImagePlotter.opt_zoom_multiplier option_map].
  destruct (Req_dec_T 3 0); [lra | reflexivity].
Defined.

(** ** Which multiplier and depth a zoom request applies *)

(** C6, as amended.  [zoom] applies [adjustment.zoom(m * d)], where [d] is the
    integer read off [zoom_depth] (zero when absent or not numeric) and [m] is
    the multiplier of the call when one is supplied that is neither zero nor
    [NaN], and the field [zoom_multiplier] of the plotter otherwise; the plot
    returned pairs the image rectangle with the snapshot after that zoom. *)
Theorem zoom_applies_effective_multiplier
        (opts_ : ImagePlotter.zoom_opts) (this : ImagePlotter.t) :
  let state :=
    ClipAdjustment.zoom (effective_multiplier opts_ this * coerced_depth opts_)%js
                        (ImagePlotter._state this) in
  ImagePlotter.zoom opts_ this =
  (ImagePlot.mk (ImagePlotter.image_clip this) (ClipAdjustment.getState state),
   ImagePlotter.set_state state this).
Proof.
  cbv zeta. unfold ImagePlotter.zoom.
  assert (Em : opt_or (ImagePlotter.opt_zoom_multiplier opts_)
                      (ImagePlotter.zoom_multiplier this) = effective_multiplier opts_ this).
  { unfold effective_multiplier, opt_or, num_or, num_truthy.
    destruct (ImagePlotter.opt_zoom_multiplier opts_) as [[r | | | ] | ]; try reflexivity.
    destruct (Req_dec_T r 0); reflexivity. }
  assert (Ed : num_or (parseInt (ImagePlotter.zoom_depth opts_)) (Fin 0) = coerced_depth opts_).
  { unfold coerced_depth, num_or, num_truthy.
    destruct (parseInt (ImagePlotter.zoom_depth opts_)) as [r | | | ]; try reflexivity.
    destruct (Req_dec_T r 0) as [-> | _]; reflexivity. }
  rewrite Em, Ed. reflexivity.
Qed.

(** When the call supplies a multiplier that is a nonzero number, it is the
    one applied. *)
Lemma effective_multiplier_supplied (d : value) (m : R) (this : ImagePlotter.t) :
  m <> 0 -> effective_multiplier (zoom_call d (Some m)) this = Fin m.
Proof.
  intros Hm. unfold effective_multiplier, zoom_call.
  cbn [ImagePlotter.opt_zoom_multiplier option_map].
  destruct (Req_dec_T m 0); [contradiction | reflexivity].
Qed.

(** When the call supplies the multiplier zero, or none, the field of the
    plotter is the one applied. *)
Lemma effective_multiplier_fallback (d : value) (this : ImagePlotter.t) :
  effective_multiplier (zoom_call d (Some 0)) this = ImagePlotter.zoom_multiplier this /\
  effective_multiplier (zoom_call d None) this = ImagePlotter.zoom_multiplier this.
Proof.
  unfold effective_multiplier, zoom_call.
  cbn [ImagePlotter.opt_zoom_multiplier option_map].
  destruct (Req_dec_T 0 0) as [_ | N]; [split; reflexivity | contradiction N; reflexivity].
Qed.

(** ** The plotter the constructor builds *)

Lemma construct_fin (iw ih cw ch : R) (o : ImagePlotter.init_opts) :
  parsed iw <> 0 \/ parsed ih <> 0 ->
  ImagePlotter.construct (Fin iw) (Fin ih) (Fin cw) (Fin ch) o =
  if wants_contain o
  then ImagePlotter.contain (fresh_plotter ImagePlotter.blank iw ih cw ch)
  else ImagePlotter.cover (fresh_plotter ImagePlotter.blank iw ih cw ch).
Proof.
  intros Hnz. unfold ImagePlotter.construct. rewrite init_fin by assumption.
  unfold wants_contain, ImagePlotter.orientation_or_cover.
  destruct (ImagePlotter.orientation o) as [[ | c s] | ]; reflexivity.
Qed.

Lemma construct_integer (iw ih : Z) (cw ch : R) (o : ImagePlotter.init_opts) :
  (Z.abs iw < 1000000000000000000000)%Z ->
  (Z.abs ih < 1000000000000000000000)%Z ->
  (iw <> 0)%Z \/ (ih <> 0)%Z ->
  ImagePlotter.construct (Fin (IZR iw)) (Fin (IZR ih)) (Fin cw) (Fin ch) o =
  if wants_contain o
  then ImagePlotter.contain (unfitted iw ih cw ch)
  else ImagePlotter.cover (unfitted iw ih cw ch).
Proof.
  intros Bw Bh Hnz. rewrite construct_fin.
  - unfold fresh_plotter, unfitted. rewrite !parsed_IZR by assumption. reflexivity.
  - rewrite !parsed_IZR by assumption. destruct Hnz as [N | N]; [left | right];
      intros E; apply N; apply eq_IZR; exact E.
Qed.

Lemma opt_or_zero (m : num) : opt_or (Some (Fin 0)) m = m.
Proof.
  unfold opt_or, num_or, num_truthy.
  destruct (Req_dec_T 0 0) as [_ | N]; [reflexivity | contradiction N; reflexivity].
Qed.

Lemma num_or_nonzero (r : R) (d : num) : r <> 0 -> num_or (Fin r) d = Fin r.
Proof.
  intros Hr. unfold num_or, num_truthy.
  destruct (Req_dec_T r 0); [contradiction | reflexivity].
Qed.

(** C6, as stated, fails for a supplied multiplier of zero: on the plotter
    for a 3 by 4 image in a 3 by 4 canvas, whose field [zoom_multiplier] is 1,
    [zoom({zoom_depth: 10, zoom_multiplier: 0})] lengthens the diagonal by
    [1 * 10], where the statement has [0 * 10]. *)
Lemma zoom_ignores_zero_multiplier :
  let this := ImagePlotter.new (Fin 3) (Fin 4) (Fin 3) (Fin 4) opts_cover in
  let opts_ := zoom_call (VNumber (Fin 10)) (Some 0) in
  exists d : R,
    ImagePlotter.zoom_multiplier this = Fin 1 /\
    ClipAdjustment._hyp (ImagePlotter._state this) = Fin d /\
    ClipAdjustment._hyp (ImagePlotter._state (snd (ImagePlotter.zoom opts_ this))) =
      Fin (d + 1 * 10) /\
    ClipAdjustment._hyp (ImagePlotter._state (zoom_as_claimed opts_ this)) =
      Fin (d + 0 * 10) /\
    snd (ImagePlotter.zoom opts_ this) <> zoom_as_claimed opts_ this.
Proof.
  cbv zeta. unfold ImagePlotter.new.
  rewrite (construct_integer 3 4 3 4 opts_cover) by (try left; lia).
  cbn [wants_contain opts_cover ImagePlotter.orientation String.eqb Ascii.eqb Bool.eqb].
  unfold unfitted. rewrite cover_width_fin by (try apply sin_ratio_nonzero; lra).
  cbn [snd]. unfold zoom_as_claimed, ImagePlotter.zoom, zoom_call, coerced_depth,
    multiplier_as_claimed, fitted_to_width, fin_plotter, ImagePlotter.set_state.
  cbn [ImagePlotter.zoom_depth ImagePlotter.opt_zoom_multiplier option_map
       ImagePlotter.zoom_multiplier ImagePlotter._state snd parseInt parseInt_num].
  rewrite opt_or_zero. rewrite (parsed_IZR 10) by lia.
  rewrite num_or_nonzero by lra.
  cbn [num_mul ClipAdjustment.zoom ClipAdjustment._hyp num_add].
  eexists. repeat split.
  intros E. injection E as E1 E2 E3. lra.
Qed.

(** ** What the two fits make of the size *)

(** [set_state] on a plotter with finite numbers is such a plotter again. *)
Lemma set_state_fin (m : num) (x y d s c x' y' d' : R) (il it : num) (iw ih : R)
                    (cl ct : num) (cw ch : R) :
  ImagePlotter.set_state (ClipAdjustment.mk (Fin x') (Fin y') (Fin d') (Fin s) (Fin c))
                         (fin_plotter m x y d s c il it iw ih cl ct cw ch) =
  fin_plotter m x' y' d' s c il it iw ih cl ct cw ch.
Proof. reflexivity. Qed.

(** After the constructor with any orientation but ["contain"], on an image
    of [iw] by [ih] whole pixels, both positive: the side that [cover] picks
    has the size of the canvas, and the other side follows the ratio of the
    image. *)
Lemma cover_size (iw ih : Z) (cw ch : R) (o : ImagePlotter.init_opts) :
  (0 < iw < 1000000000000000000000)%Z -> (0 < ih < 1000000000000000000000)%Z ->
  wants_contain o = false ->
  let plot := fst (ImagePlotter.construct (Fin (IZR iw)) (Fin (IZR ih)) (Fin cw) (Fin ch) o) in
  ((iw <= ih)%Z ->
   Clip.width (ImagePlot.canvas plot) = Fin cw /\
   Clip.height (ImagePlot.canvas plot) = Fin (cw * IZR ih / IZR iw)) /\
  ((ih < iw)%Z ->
   Clip.width (ImagePlot.canvas plot) = Fin (ch * IZR iw / IZR ih) /\
   Clip.height (ImagePlot.canvas plot) = Fin ch).
Proof.
  intros Hw Hh Ho plot. subst plot.
  rewrite construct_integer by (try left; lia). rewrite Ho. unfold unfitted.
  assert (HW : IZR iw <> 0) by (apply not_0_IZR; lia).
  assert (HH : IZR ih <> 0) by (apply not_0_IZR; lia).
  pose proof (diag_pos (IZR iw) (IZR ih) (or_introl HW)) as Hd.
  split; intros Hcmp.
  - rewrite cover_width_fin by (try apply sin_ratio_nonzero; try apply IZR_le; assumption).
    cbn [fst ImagePlot.canvas ClipAdjustment.getState Clip.width Clip.height].
    destruct (fitted_to_width_size 0 0 (diag (IZR iw) (IZR ih))
                (IZR iw / diag (IZR iw) (IZR ih)) (IZR ih / diag (IZR iw) (IZR ih))
                (IZR iw) (IZR ih) cw ch) as [Ew Eh]; [apply sin_ratio_nonzero; assumption | ].
    rewrite Ew, Eh. split; [reflexivity | ]. apply f_equal. field. split; lra.
  - rewrite cover_height_fin by (try apply cos_ratio_nonzero; try apply IZR_lt; assumption).
    cbn [fst ImagePlot.canvas ClipAdjustment.getState Clip.width Clip.height].
    destruct (fitted_to_height_size 0 0 (diag (IZR iw) (IZR ih))
                (IZR iw / diag (IZR iw) (IZR ih)) (IZR ih / diag (IZR iw) (IZR ih))
                (IZR iw) (IZR ih) cw ch) as [Ew Eh]; [apply cos_ratio_nonzero; assumption | ].
    rewrite Ew, Eh. split; [ | reflexivity]. apply f_equal. field. split; lra.
Qed.

(** The same for ["contain"], which picks the longer side of the image. *)
Lemma contain_size (iw ih : Z) (cw ch : R) (o : ImagePlotter.init_opts) :
  (0 < iw < 1000000000000000000000)%Z -> (0 < ih < 1000000000000000000000)%Z ->
  wants_contain o = true ->
  let plot := fst (ImagePlotter.construct (Fin (IZR iw)) (Fin (IZR ih)) (Fin cw) (Fin ch) o) in
  ((ih <= iw)%Z ->
   Clip.width (ImagePlot.canvas plot) = Fin cw /\
   Clip.height (ImagePlot.canvas plot) = Fin (cw * IZR ih / IZR iw)) /\
  ((iw < ih)%Z ->
   Clip.width (ImagePlot.canvas plot) = Fin (ch * IZR iw / IZR ih) /\
   Clip.height (ImagePlot.canvas plot) = Fin ch).
Proof.
  intros Hw Hh Ho plot. subst plot.
  rewrite construct_integer by (try left; lia). rewrite Ho. unfold unfitted.
  assert (HW : IZR iw <> 0) by (apply not_0_IZR; lia).
  assert (HH : IZR ih <> 0) by (apply not_0_IZR; lia).
  pose proof (diag_pos (IZR iw) (IZR ih) (or_introl HW)) as Hd.
  split; intros Hcmp.
  - rewrite contain_width_fin by (try apply sin_ratio_nonzero; try apply IZR_le; assumption).
    cbn [fst ImagePlot.canvas ClipAdjustment.getState Clip.width Clip.height].
    destruct (fitted_to_width_size 0 0 (diag (IZR iw) (IZR ih))
                (IZR iw / diag (IZR iw) (IZR ih)) (IZR ih / diag (IZR iw) (IZR ih))
                (IZR iw) (IZR ih) cw ch) as [Ew Eh]; [apply sin_ratio_nonzero; assumption | ].
    rewrite Ew, Eh. split; [reflexivity | ]. apply f_equal. field. split; lra.
  - rewrite contain_height_fin by (try apply cos_ratio_nonzero; try apply IZR_lt; assumption).
    cbn [fst ImagePlot.canvas ClipAdjustment.getState Clip.width Clip.height].
    destruct (fitted_to_height_size 0 0 (diag (IZR iw) (IZR ih))
                (IZR iw / diag (IZR iw) (IZR ih)) (IZR ih / diag (IZR iw) (IZR ih))
                (IZR iw) (IZR ih) cw ch) as [Ew Eh]; [apply cos_ratio_nonzero; assumption | ].
    rewrite Ew, Eh. split; [ | reflexivity]. apply f_equal. field. split; lra.
Qed.

(** When the rectangle of [cover] covers the canvas: exactly when the side
    that was not picked comes out at least as long as the canvas. *)
Lemma cover_covers_iff (iw ih : Z) (cw ch : R) (o : ImagePlotter.init_opts) :
  (0 < iw < 1000000000000000000000)%Z -> (0 < ih < 1000000000000000000000)%Z ->
  wants_contain o = false ->
  let plot := fst (ImagePlotter.construct (Fin (IZR iw)) (Fin (IZR ih)) (Fin cw) (Fin ch) o) in
  exists w h : R,
    Clip.width (ImagePlot.canvas plot) = Fin w /\
    Clip.height (ImagePlot.canvas plot) = Fin h /\
    (cw <= w /\ ch <= h <->
     if (iw <=? ih)%Z then ch * IZR iw <= cw * IZR ih else cw * IZR ih <= ch * IZR iw).
Proof.
  intros Hw Hh Ho plot.
  destruct (cover_size iw ih cw ch o Hw Hh Ho) as [Cw Ch]. fold plot in Cw, Ch.
  assert (PW : 0 < IZR iw) by (apply IZR_lt; lia).
  assert (PH : 0 < IZR ih) by (apply IZR_lt; lia).
  destruct (Z.leb_spec iw ih) as [L | L].
  - destruct (Cw L) as [Ew Eh]. exists cw, (cw * IZR ih / IZR iw).
    split; [exact Ew | split; [exact Eh | ]].
    assert (E : cw * IZR ih / IZR iw * IZR iw = cw * IZR ih) by (field; lra).
    split.
    + intros [_ G]. rewrite <- E. apply Rmult_le_compat_r; lra.
    + intros G. split; [lra | ].
      apply Rmult_le_reg_r with (IZR iw); [exact PW | ]. rewrite E. exact G.
  - destruct (Ch L) as [Ew Eh]. exists (ch * IZR iw / IZR ih), ch.
    split; [exact Ew | split; [exact Eh | ]].
    assert (E : ch * IZR iw / IZR ih * IZR ih = ch * IZR iw) by (field; lra).
    split.
    + intros [G _]. rewrite <- E. apply Rmult_le_compat_r; lra.
    + intros G. split; [ | lra].
      apply Rmult_le_reg_r with (IZR ih); [exact PH | ]. rewrite E. exact G.
Qed.

(** When the rectangle of [contain] fits in the canvas: exactly when the side
    that was not picked comes out at most as long as the canvas. *)
Lemma contain_fits_iff (iw ih : Z) (cw ch : R) (o : ImagePlotter.init_opts) :
  (0 < iw < 1000000000000000000000)%Z -> (0 < ih < 1000000000000000000000)%Z ->
  wants_contain o = true ->
  let plot := fst (ImagePlotter.construct (Fin (IZR iw)) (Fin (IZR ih)) (Fin cw) (Fin ch) o) in
  exists w h : R,
    Clip.width (ImagePlot.canvas plot) = Fin w /\
    Clip.height (ImagePlot.canvas plot) = Fin h /\
    (w <= cw /\ h <= ch <->
     if (ih <=? iw)%Z then cw * IZR ih <= ch * IZR iw else ch * IZR iw <= cw * IZR ih).
Proof.
  intros Hw Hh Ho plot.
  destruct (contain_size iw ih cw ch o Hw Hh Ho) as [Cw Ch]. fold plot in Cw, Ch.
  assert (PW : 0 < IZR iw) by (apply IZR_lt; lia).
  assert (PH : 0 < IZR ih) by (apply IZR_lt; lia).
  destruct (Z.leb_spec ih iw) as [L | L].
  - destruct (Cw L) as [Ew Eh]. exists cw, (cw * IZR ih / IZR iw).
    split; [exact Ew | split; [exact Eh | ]].
    assert (E : cw * IZR ih / IZR iw * IZR iw = cw * IZR ih) by (field; lra).
    split.
    + intros [_ G]. rewrite <- E. apply Rmult_le_compat_r; lra.
    + intros G. split; [lra | ].
      apply Rmult_le_reg_r with (IZR iw); [exact PW | ]. rewrite E. exact G.
  - destruct (Ch L) as [Ew Eh]. exists (ch * IZR iw / IZR ih), ch.
    split; [exact Ew | split; [exact Eh | ]].
    assert (E : ch * IZR iw / IZR ih * IZR ih = ch * IZR iw) by (field; lra).
    split.
    + intros [G _]. rewrite <- E. apply Rmult_le_compat_r; lra.
    + intros G. split; [ | lra].
      apply Rmult_le_reg_r with (IZR ih); [exact PH | ]. rewrite E. exact G.
Qed.

(** C1 at a 200 by 100 image and a 300 by 100 canvas.  The constructor with
    orientation ["cover"] picks the height, the shorter side of the image,
    and returns the rectangle of width 200 and height 100 at (50, 0): the
    width is less than the 300 of the canvas. *)
Theorem cover_narrower_than_canvas :
  let plot := fst (ImagePlotter.construct (Fin 200) (Fin 100) (Fin 300) (Fin 100) opts_cover) in
  plot = ImagePlot.mk (Clip.new (Fin 0) (Fin 0) (Fin 200) (Fin 100))
                      (Clip.new (Fin 50) (Fin 0) (Fin 200) (Fin 100)) /\
  (Clip.width (ImagePlot.canvas plot) <? Fin 300)%js = true.
Proof.
  cbv zeta.
  assert (E : fst (ImagePlotter.construct (Fin 200) (Fin 100) (Fin 300) (Fin 100) opts_cover) =
              ImagePlot.mk (Clip.new (Fin 0) (Fin 0) (Fin 200) (Fin 100))
                           (Clip.new (Fin 50) (Fin 0) (Fin 200) (Fin 100))).
  { rewrite (construct_integer 200 100 300 100 opts_cover) by (try left; lia).
    cbn [wants_contain opts_cover ImagePlotter.orientation String.eqb Ascii.eqb Bool.eqb].
    unfold unfitted. rewrite cover_height_fin by (try apply cos_ratio_nonzero; lra).
    cbn [fst]. eval_snapshot (diag 200 100). }
  rewrite E. split; [reflexivity | ].
  cbn [ImagePlot.canvas Clip.width]. unfold num_ltb.
  destruct (Rlt_dec 200 300); [reflexivity | lra].
Qed.

(** C2 at the same sizes.  The constructor with orientation ["contain"]
    picks the width, the longer side of the image, and returns the rectangle
    of width 300 and height 150 at (0, -25): the height is more than the 100
    of the canvas. *)
Theorem contain_taller_than_canvas :
  let plot := fst (ImagePlotter.construct (Fin 200) (Fin 100) (Fin 300) (Fin 100) opts_contain) in
  plot = ImagePlot.mk (Clip.new (Fin 0) (Fin 0) (Fin 200) (Fin 100))
                      (Clip.new (Fin 0) (Fin (-25)) (Fin 300) (Fin 150)) /\
  (Fin 100 <? Clip.height (ImagePlot.canvas plot))%js = true.
Proof.
  cbv zeta.
  assert (E : fst (ImagePlotter.construct (Fin 200) (Fin 100) (Fin 300) (Fin 100) opts_contain) =
              ImagePlot.mk (Clip.new (Fin 0) (Fin 0) (Fin 200) (Fin 100))
                           (Clip.new (Fin 0) (Fin (-25)) (Fin 300) (Fin 150))).
  { rewrite (construct_integer 200 100 300 100 opts_contain) by (try left; lia).
    cbn [wants_contain opts_contain ImagePlotter.orientation String.eqb Ascii.eqb Bool.eqb].
    unfold unfitted. rewrite contain_width_fin by (try apply sin_ratio_nonzero; lra).
    cbn [fst]. eval_snapshot (diag 200 100). }
  rewrite E. split; [reflexivity | ].
  cbn [ImagePlot.canvas Clip.height]. unfold num_ltb.
  destruct (Rlt_dec 100 150); [reflexivity | lra].
Qed.

(** ** [cover] on a plotter that is already fitted *)

(** Once the height is fitted, a further [cover()] keeps the size and moves
    the rectangle by half the difference of image and canvas size. *)
Lemma cover_again_by_height (m : num) (x y s c : R) (il it : num) (iw ih : R)
                            (cl ct : num) (cw ch : R) :
  c <> 0 -> ih < iw ->
  ImagePlotter.cover (fin_plotter m x y (ch / c) s c il it iw ih cl ct cw ch) =
  (ImagePlot.mk (Clip.new (Fin 0) (Fin 0) (Fin iw) (Fin ih))
                (Clip.new (Fin (x - (iw - cw) / 2)) (Fin (y - (ih - ch) / 2))
                          (Fin (s * (ch / c))) (Fin ch)),
   fin_plotter m (x - (iw - cw) / 2) (y - (ih - ch) / 2) (ch / c) s c
               il it iw ih cl ct cw ch).
Proof.
  intros Hc Hlt. rewrite cover_height_fin by assumption.
  unfold fitted_to_height. rewrite set_state_fin.
  unfold ClipAdjustment.getState, ClipAdjustment.getX, ClipAdjustment.getY,
    ClipAdjustment.getWidth, ClipAdjustment.getHeight, fin_plotter.
  cbn [ClipAdjustment._x ClipAdjustment._y ClipAdjustment._hyp ClipAdjustment._sin
       ClipAdjustment._cos num_mul].
  repeat match goal with
    | |- Fin _ = Fin _ => apply f_equal
    | |- Clip.new _ _ _ _ = Clip.new _ _ _ _ => f_equal
    | |- ImagePlot.mk _ _ = ImagePlot.mk _ _ => f_equal
    | |- ClipAdjustment.mk _ _ _ _ _ = ClipAdjustment.mk _ _ _ _ _ => f_equal
    | |- ImagePlotter.mk _ _ _ _ = ImagePlotter.mk _ _ _ _ => f_equal
    | |- (_, _) = (_, _) => f_equal
    end; field; assumption.
Qed.

(** The plotter the constructor leaves for a 400 by 200 image covering a 100
    by 100 canvas, the first scenario of the specification. *)
Lemma scenario_cover_plotter :
  ImagePlotter.new (Fin 400) (Fin 200) (Fin 100) (Fin 100) opts_cover =
  fin_plotter (Fin 1) (-50) 0 (100 / (200 / diag 400 200))
              (400 / diag 400 200) (200 / diag 400 200)
              (Fin 0) (Fin 0) 400 200 (Fin 0) (Fin 0) 100 100.
Proof.
  unfold ImagePlotter.new.
  rewrite (construct_integer 400 200 100 100 opts_cover) by (try left; lia).
  cbn [wants_contain opts_cover ImagePlotter.orientation String.eqb Ascii.eqb Bool.eqb].
  unfold unfitted. rewrite cover_height_fin by (try apply cos_ratio_nonzero; lra).
  cbn [snd]. unfold fitted_to_height. rewrite set_state_fin.
  unfold fin_plotter.
  assert (diag 400 200 <> 0) by (apply Rgt_not_eq, diag_pos; left; lra).
  f_equal. f_equal; apply f_equal; field; repeat split; (assumption || lra).
Qed.

(** C5 on the plotter of the first scenario of the specification (a 400 by
    200 image covering a 100 by 100 canvas).  The first [cover()] after the
    constructor returns the 200 by 100 rectangle at (-200, -50), the second
    one the same rectangle at (-350, -100): the two plots differ. *)
Theorem cover_twice_differs :
  let this := ImagePlotter.new (Fin 400) (Fin 200) (Fin 100) (Fin 100) opts_cover in
  let first := ImagePlotter.cover this in
  let second := ImagePlotter.cover (snd first) in
  ImagePlot.canvas (fst first) = Clip.new (Fin (-200)) (Fin (-50)) (Fin 200) (Fin 100) /\
  ImagePlot.canvas (fst second) = Clip.new (Fin (-350)) (Fin (-100)) (Fin 200) (Fin 100) /\
  fst first <> fst second.
Proof.
  cbv zeta. rewrite scenario_cover_plotter.
  assert (Hd : diag 400 200 <> 0) by (apply Rgt_not_eq, diag_pos; left; lra).
  assert (Hc : 200 / diag 400 200 <> 0) by (apply cos_ratio_nonzero; lra).
  rewrite cover_again_by_height by (assumption || lra). cbn [fst snd].
  rewrite cover_again_by_height by (assumption || lra). cbn [fst ImagePlot.canvas].
  assert (E1 : Clip.new (Fin (-50 - (400 - 100) / 2)) (Fin (0 - (200 - 100) / 2))
                        (Fin (400 / diag 400 200 * (100 / (200 / diag 400 200)))) (Fin 100)
               = Clip.new (Fin (-200)) (Fin (-50)) (Fin 200) (Fin 100)).
  { f_equal; apply f_equal; field; assumption. }
  assert (E2 : Clip.new (Fin (-50 - (400 - 100) / 2 - (400 - 100) / 2))
                        (Fin (0 - (200 - 100) / 2 - (200 - 100) / 2))
                        (Fin (400 / diag 400 200 * (100 / (200 / diag 400 200)))) (Fin 100)
               = Clip.new (Fin (-350)) (Fin (-100)) (Fin 200) (Fin 100)).
  { f_equal; apply f_equal; field; assumption. }
  rewrite E1, E2. repeat split.
  intros E. injection E as E. lra.
Qed.

(** * Further properties of the adjustment *)

Lemma num_add_comm (a b : num) : (a + b)%js = (b + a)%js.
Proof.
  destruct a, b; simpl; try reflexivity. f_equal. lra.
Qed.

Lemma num_add_cancel (a : num) (u v : R) : u + v = 0 -> (a + Fin u + Fin v)%js = a.
Proof.
  intros E. rewrite <- num_add_assoc. cbn [num_add]. apply num_add_zero_r. exact E.
Qed.

(** A sequence of calls on an adjustment with finite fields changes the
    position and the diagonal, and they stay finite. *)
Lemma after_calls_keeps_ratios (calls : list adjust_call) (x y d s c : R) :
  exists x' y' d' : R,
    after_calls calls (ClipAdjustment.mk (Fin x) (Fin y) (Fin d) (Fin s) (Fin c)) =
    ClipAdjustment.mk (Fin x') (Fin y') (Fin d') (Fin s) (Fin c).
Proof.
  revert x y d. induction calls as [ | k calls IH]; intros x y d.
  - exists x, y, d. reflexivity.
  - unfold after_calls in *. cbn [fold_left]. destruct k as [a | dx dy]; cbn [apply_call].
    + rewrite zoom_fin. apply IH.
    + unfold ClipAdjustment.move.
      cbn [ClipAdjustment._x ClipAdjustment._y ClipAdjustment._hyp ClipAdjustment._sin
           ClipAdjustment._cos num_add]. apply IH.
Qed.

Lemma diag_square (W H : R) : diag W H * diag W H = W * W + H * H.
Proof.
  unfold diag. rewrite sqrt_sqrt by apply diag_radicand_nonneg. ring.
Qed.

(** X1.  An adjustment is constructed from sizes of which [parseInt] reads
    integers that are not both zero, and then zoomed and moved any number of
    times.  Its ratios are finite with [sin * sin + cos * cos = 1], and its
    sides and diagonal are finite with
    [width() * width() + height() * height() = hyp * hyp]. *)
Theorem sides_and_diagonal_pythagorean (x y w h : R) (calls : list adjust_call) :
  parsed w <> 0 \/ parsed h <> 0 ->
  let s := after_calls calls
             (ClipAdjustment.new (Fin x) (Fin y) (VNumber (Fin w)) (VNumber (Fin h))) in
  exists sn cs d sw sh : R,
    ClipAdjustment._sin s = Fin sn /\ ClipAdjustment._cos s = Fin cs /\
    sn * sn + cs * cs = 1 /\
    ClipAdjustment._hyp s = Fin d /\
    ClipAdjustment.getWidth s = Fin sw /\ ClipAdjustment.getHeight s = Fin sh /\
    sw * sw + sh * sh = d * d.
Proof.
  intros Hnz s. subst s. rewrite new_adjustment_fin by assumption.
  pose proof (diag_pos _ _ Hnz) as Hd. pose proof (diag_square (parsed w) (parsed h)) as Hsq.
  set (D := diag (parsed w) (parsed h)) in *.
  destruct (after_calls_keeps_ratios calls x y D (parsed w / D) (parsed h / D))
    as (x' & y' & d' & E).
  rewrite E. exists (parsed w / D), (parsed h / D), d', (parsed w / D * d'), (parsed h / D * d').
  assert (P : parsed w / D * (parsed w / D) + parsed h / D * (parsed h / D) = 1).
  { replace (parsed w / D * (parsed w / D) + parsed h / D * (parsed h / D))
      with ((parsed w * parsed w + parsed h * parsed h) / (D * D)) by (field; lra).
    rewrite <- Hsq. field. lra. }
  repeat split; try reflexivity; try exact P.
  replace (parsed w / D * d' * (parsed w / D * d') + parsed h / D * d' * (parsed h / D * d'))
    with ((parsed w / D * (parsed w / D) + parsed h / D * (parsed h / D)) * (d' * d')) by ring.
  rewrite P. ring.
Qed.

Lemma sides_and_diagonal_pythagorean_witness :
  (parsed 3 <> 0 \/ parsed 4 <> 0) /\
  let s := after_calls [CallZoom 2; CallMove 5 (-1)]
             (ClipAdjustment.new (Fin 0) (Fin 0) (VNumber (Fin 3)) (VNumber (Fin 4))) in
  exists sn cs d sw sh : R,
    ClipAdjustment._sin s = Fin sn /\ ClipAdjustment._cos s = Fin cs /\
    sn * sn + cs * cs = 1 /\
    ClipAdjustment._hyp s = Fin d /\
    ClipAdjustment.getWidth s = Fin sw /\ ClipAdjustment.getHeight s = Fin sh /\
    sw * sw + sh * sh = d * d.
Proof.
  assert (H : parsed 3 <> 0 \/ parsed 4 <> 0) by (left; rewrite parsed_IZR by lia; lra).
  split; [exact H | ].
  exact (sides_and_diagonal_pythagorean 0 0 3 4 [CallZoom 2; CallMove 5 (-1)] H).
Defined.

(** Zooming by the opposite of the difference [calcHypDifferenceByWidth]
    computes, on finite fields. *)
Lemma zoom_to_width_fin (t x y d s c : R) :
  s <> 0 ->
  let st := ClipAdjustment.mk (Fin x) (Fin y) (Fin d) (Fin s) (Fin c) in
  ClipAdjustment.getWidth
    (ClipAdjustment.zoom (- ClipAdjustment.calcHypDifferenceByWidth (Fin t) st)%js st) = Fin t.
Proof.
  intros Hs st. unfold st. rewrite hyp_difference_by_width_fin by assumption.
  cbn [num_neg]. rewrite zoom_fin. unfold ClipAdjustment.getWidth.
  cbn [ClipAdjustment._sin ClipAdjustment._hyp num_mul]. f_equal. field. assumption.
Qed.

Lemma zoom_to_height_fin (t x y d s c : R) :
  c <> 0 ->
  let st := ClipAdjustment.mk (Fin x) (Fin y) (Fin d) (Fin s) (Fin c) in
  ClipAdjustment.getHeight
    (ClipAdjustment.zoom (- ClipAdjustment.calcHypDifferenceByHeight (Fin t) st)%js st) = Fin t.
Proof.
  intros Hc st. unfold st. rewrite hyp_difference_by_height_fin by assumption.
  cbn [num_neg]. rewrite zoom_fin. unfold ClipAdjustment.getHeight.
  cbn [ClipAdjustment._cos ClipAdjustment._hyp num_mul]. f_equal. field. assumption.
Qed.

(** X2.  In exact arithmetic (real numbers in place of binary64: no rounding
    and no overflow), on an adjustment constructed from a width of which
    [parseInt] reads a nonzero integer, after any zooms and moves: zooming by
    the opposite of [calcHypDifferenceByWidth(t)] makes the width exactly
    [t], for every finite target [t]. *)
Theorem hyp_difference_by_width_reaches_target
        (x y w h t : R) (calls : list adjust_call) :
  parsed w <> 0 ->
  let s := after_calls calls
             (ClipAdjustment.new (Fin x) (Fin y) (VNumber (Fin w)) (VNumber (Fin h))) in
  ClipAdjustment.getWidth
    (ClipAdjustment.zoom (- ClipAdjustment.calcHypDifferenceByWidth (Fin t) s)%js s) = Fin t.
Proof.
  intros Hw s. subst s. rewrite new_adjustment_fin by (left; exact Hw).
  set (D := diag (parsed w) (parsed h)).
  destruct (after_calls_keeps_ratios calls x y D (parsed w / D) (parsed h / D))
    as (x' & y' & d' & E).
  rewrite E. apply zoom_to_width_fin. apply sin_ratio_nonzero. exact Hw.
Qed.

Lemma hyp_difference_by_width_reaches_target_witness :
  parsed 400 <> 0 /\
  let s := after_calls [CallZoom 10]
             (ClipAdjustment.new (Fin 0) (Fin 0) (VNumber (Fin 400)) (VNumber (Fin 200))) in
  ClipAdjustment.getWidth
    (ClipAdjustment.zoom (- ClipAdjustment.calcHypDifferenceByWidth (Fin 100) s)%js s) = Fin 100.
Proof.
  assert (H : parsed 400 <> 0) by (rewrite parsed_IZR by lia; lra).
  split; [exact H | ].
  exact (hyp_difference_by_width_reaches_target 0 0 400 200 100 [CallZoom 10] H).
Defined.

(** X3.  The same for the height, in exact arithmetic: zooming by the
    opposite of [calcHypDifferenceByHeight(t)] makes the height exactly
    [t]. *)
Theorem hyp_difference_by_height_reaches_target
        (x y w h t : R) (calls : list adjust_call) :
  parsed h <> 0 ->
  let s := after_calls calls
             (ClipAdjustment.new (Fin x) (Fin y) (VNumber (Fin w)) (VNumber (Fin h))) in
  ClipAdjustment.getHeight
    (ClipAdjustment.zoom (- ClipAdjustment.calcHypDifferenceByHeight (Fin t) s)%js s) = Fin t.
Proof.
  intros Hh s. subst s. rewrite new_adjustment_fin by (right; exact Hh).
  set (D := diag (parsed w) (parsed h)).
  destruct (after_calls_keeps_ratios calls x y D (parsed w / D) (parsed h / D))
    as (x' & y' & d' & E).
  rewrite E. apply zoom_to_height_fin. apply cos_ratio_nonzero. exact Hh.
Qed.

Lemma hyp_difference_by_height_reaches_target_witness :
  parsed 200 <> 0 /\
  let s := after_calls [CallMove 3 4]
             (ClipAdjustment.new (Fin 0) (Fin 0) (VNumber (Fin 400)) (VNumber (Fin 200))) in
  ClipAdjustment.getHeight
    (ClipAdjustment.zoom (- ClipAdjustment.calcHypDifferenceByHeight (Fin 100) s)%js s) = Fin 100.
Proof.
  assert (H : parsed 200 <> 0) by (rewrite parsed_IZR by lia; lra).
  split; [exact H | ].
  exact (hyp_difference_by_height_reaches_target 0 0 400 200 100 [CallMove 3 4] H).
Defined.

(** X4.  [zoom] does not clamp.  On a fresh adjustment with positive sides
    [W] by [H] and diagonal [D], [zoom(a)] gives positive sides when
    [a > -D], sides of length zero when [a = -D], and negative sides when
    [a < -D]. *)
Theorem zoom_past_diagonal_flips_sides (x y w h a : R) :
  0 < parsed w -> 0 < parsed h ->
  let D := diag (parsed w) (parsed h) in
  let s := ClipAdjustment.zoom (Fin a)
             (ClipAdjustment.new (Fin x) (Fin y) (VNumber (Fin w)) (VNumber (Fin h))) in
  exists sw sh : R,
    ClipAdjustment.getWidth s = Fin sw /\ ClipAdjustment.getHeight s = Fin sh /\
    (- D < a -> 0 < sw /\ 0 < sh) /\
    (a = - D -> sw = 0 /\ sh = 0) /\
    (a < - D -> sw < 0 /\ sh < 0).
Proof.
  intros HW HH D s. subst s.
  rewrite new_adjustment_fin by (left; lra). fold D.
  assert (Hd : 0 < D) by (apply diag_pos; left; lra).
  rewrite zoom_fin. unfold ClipAdjustment.getWidth, ClipAdjustment.getHeight.
  cbn [ClipAdjustment._sin ClipAdjustment._cos ClipAdjustment._hyp num_mul].
  exists (parsed w / D * (D + a)), (parsed h / D * (D + a)).
  assert (Ps : 0 < parsed w / D) by (apply Rdiv_lt_0_compat; assumption).
  assert (Pc : 0 < parsed h / D) by (apply Rdiv_lt_0_compat; assumption).
  split; [reflexivity | split; [reflexivity | ]].
  split; [ | split].
  - intros G. split; apply Rmult_lt_0_compat; lra.
  - intros ->. split; ring.
  - intros G. split; nra.
Qed.

Lemma zoom_past_diagonal_flips_sides_witness :
  (0 < parsed 3 /\ 0 < parsed 4) /\
  let D := diag (parsed 3) (parsed 4) in
  let s := ClipAdjustment.zoom (Fin (-100))
             (ClipAdjustment.new (Fin 0) (Fin 0) (VNumber (Fin 3)) (VNumber (Fin 4))) in
  exists sw sh : R,
    ClipAdjustment.getWidth s = Fin sw /\ ClipAdjustment.getHeight s = Fin sh /\
    (- D < -100 -> 0 < sw /\ 0 < sh) /\
    (-100 = - D -> sw = 0 /\ sh = 0) /\
    (-100 < - D -> sw < 0 /\ sh < 0).
Proof.
  assert (H3 : 0 < parsed 3) by (rewrite parsed_IZR by lia; lra).
  assert (H4 : 0 < parsed 4) by (rewrite parsed_IZR by lia; lra).
  split; [split; assumption | ].
  exact (zoom_past_diagonal_flips_sides 0 0 3 4 (-100) H3 H4).
Defined.

(** X5.  In exact arithmetic (real numbers in place of binary64: no rounding
    and no overflow), on an adjustment constructed from sizes of which
    [parseInt] reads integers that are not both zero, after any zooms and
    moves, [zoom(a)] followed by [zoom(b)] leaves the adjustment that the
    single call [zoom(a + b)] leaves, position included. *)
Theorem zoom_additive_with_position (x y w h a b : R) (calls : list adjust_call) :
  parsed w <> 0 \/ parsed h <> 0 ->
  let s := after_calls calls
             (ClipAdjustment.new (Fin x) (Fin y) (VNumber (Fin w)) (VNumber (Fin h))) in
  ClipAdjustment.zoom (Fin b) (ClipAdjustment.zoom (Fin a) s) =
  ClipAdjustment.zoom (Fin (a + b)) s.
Proof.
  intros Hnz s. subst s. rewrite new_adjustment_fin by assumption.
  set (D := diag (parsed w) (parsed h)).
  destruct (after_calls_keeps_ratios calls x y D (parsed w / D) (parsed h / D))
    as (x' & y' & d' & E).
  rewrite E, !zoom_fin. f_equal; apply f_equal; ring.
Qed.

Lemma zoom_additive_with_position_witness :
  (parsed 3 <> 0 \/ parsed 4 <> 0) /\
  let s := after_calls [CallMove 1 1]
             (ClipAdjustment.new (Fin 0) (Fin 0) (VNumber (Fin 3)) (VNumber (Fin 4))) in
  ClipAdjustment.zoom (Fin 5) (ClipAdjustment.zoom (Fin 2) s) =
  ClipAdjustment.zoom (Fin (2 + 5)) s.
Proof.
  assert (H : parsed 3 <> 0 \/ parsed 4 <> 0) by (left; rewrite parsed_IZR by lia; lra).
  split; [exact H | ].
  exact (zoom_additive_with_position 0 0 3 4 2 5 [CallMove 1 1] H).
Defined.

Lemma adjustment_zoom_move_commute (a dx dy : num) (s : ClipAdjustment.t) :
  ClipAdjustment.zoom a (ClipAdjustment.move dx dy s) =
  ClipAdjustment.move dx dy (ClipAdjustment.zoom a s).
Proof.
  unfold ClipAdjustment.zoom, ClipAdjustment.move, num_sub.
  cbn [ClipAdjustment._x ClipAdjustment._y ClipAdjustment._hyp ClipAdjustment._sin
       ClipAdjustment._cos].
  f_equal.
  - rewrite <- !num_add_assoc. f_equal. apply num_add_comm.
  - rewrite <- !num_add_assoc. f_equal. apply num_add_comm.
Qed.

(** * Further properties of the plotter *)

(** X6.  In exact arithmetic (real numbers in place of binary64: no rounding
    and no overflow), panning and zooming commute: on every plotter,
    [move(dx, dy)] followed by [zoom(opts)] returns the plot and leaves the
    plotter that [zoom(opts)] followed by [move(dx, dy)] does. *)
Theorem plotter_zoom_move_commute
        (this : ImagePlotter.t) (dx dy : num) (opts_ : ImagePlotter.zoom_opts) :
  ImagePlotter.zoom opts_ (snd (ImagePlotter.move dx dy this)) =
  ImagePlotter.move dx dy (snd (ImagePlotter.zoom opts_ this)).
Proof.
  unfold ImagePlotter.zoom, ImagePlotter.move, ImagePlotter.set_state,
    ImagePlotter.image_clip.
  cbn [snd ImagePlotter._state ImagePlotter._image ImagePlotter._canvas
       ImagePlotter.zoom_multiplier].
  rewrite adjustment_zoom_move_commute. reflexivity.
Qed.

(** X7.  In exact arithmetic (real numbers in place of binary64: no rounding
    and no overflow), moves add up and can be undone: on every plotter,
    [move(a, b)] followed by [move(c, d)] returns the plot and leaves the
    plotter of [move(a + c, b + d)]; and for finite offsets, [move(dx, dy)]
    followed by [move(-dx, -dy)] leaves the plotter as it was. *)
Theorem moves_add_up (this : ImagePlotter.t) (a b c d : num) (dx dy : R) :
  ImagePlotter.move c d (snd (ImagePlotter.move a b this)) =
    ImagePlotter.move (a + c)%js (b + d)%js this /\
  snd (ImagePlotter.move (Fin (- dx)) (Fin (- dy))
         (snd (ImagePlotter.move (Fin dx) (Fin dy) this))) = this.
Proof.
  unfold ImagePlotter.move, ImagePlotter.set_state, ImagePlotter.image_clip,
    ClipAdjustment.move.
  cbn [snd ImagePlotter._state ImagePlotter._image ImagePlotter._canvas
       ImagePlotter.zoom_multiplier ClipAdjustment._x ClipAdjustment._y
       ClipAdjustment._hyp ClipAdjustment._sin ClipAdjustment._cos].
  split.
  - rewrite <- !num_add_assoc. reflexivity.
  - rewrite !num_add_cancel by ring. destruct this as [m [x y h s k] i v]. reflexivity.
Qed.

(** A zoom and the opposite zoom cancel on a settled adjustment. *)
Lemma zoom_undo_settled (a : R) (s : ClipAdjustment.t) :
  settled s -> ClipAdjustment.zoom (Fin (- a)) (ClipAdjustment.zoom (Fin a) s) = s.
Proof.
  intros Hs. destruct s as [x y d sn cs]. unfold ClipAdjustment.zoom, num_sub.
  cbn [ClipAdjustment._x ClipAdjustment._y ClipAdjustment._hyp ClipAdjustment._sin
       ClipAdjustment._cos].
  rewrite (num_add_cancel d a (- a)) by ring.
  destruct Hs as [[[s' Es] [c' Ec]] | [Hx Hy]];
    cbn [ClipAdjustment._x ClipAdjustment._y ClipAdjustment._sin ClipAdjustment._cos] in *.
  - subst sn cs. cbn [num_mul num_neg]. rewrite !num_add_cancel by ring. reflexivity.
  - subst x y. reflexivity.
Qed.

Lemma coerced_integer_depth (d : Z) :
  (Z.abs d < 1000000000000000000000)%Z ->
  num_or (parseInt (VNumber (Fin (IZR d)))) (Fin 0) = Fin (IZR d).
Proof.
  intros Hd. rewrite parseInt_integer by exact Hd.
  unfold num_or, num_truthy. destruct (Req_dec_T (IZR d) 0) as [E | N]; [ | reflexivity].
  rewrite E. reflexivity.
Qed.

(** X8.  In exact arithmetic (real numbers in place of binary64: no rounding
    and no overflow), zooming in and out again restores the plotter: on every
    state a plotter reaches with finite arguments, [zoom] with a whole depth
    [d] (below 1e21 in magnitude) followed by [zoom] with the depth [-d] and
    the same multiplier option leaves the plotter exactly as it was. *)
Theorem zoom_in_then_out_restores
        (this : ImagePlotter.t) (d : Z) (multiplier : option R) :
  reachable this ->
  (Z.abs d < 1000000000000000000000)%Z ->
  snd (ImagePlotter.zoom (zoom_call (VNumber (Fin (IZR (- d)))) multiplier)
         (snd (ImagePlotter.zoom (zoom_call (VNumber (Fin (IZR d))) multiplier) this))) =
  this.
Proof.
  intros Hr Hd. destruct (reachable_inv this Hr) as [Hm Hs].
  unfold ImagePlotter.zoom, zoom_call, ImagePlotter.set_state.
  cbn [snd ImagePlotter.zoom_depth ImagePlotter.opt_zoom_multiplier
       ImagePlotter.zoom_multiplier ImagePlotter._state ImagePlotter._image
       ImagePlotter._canvas].
  rewrite !coerced_integer_depth by lia.
  destruct (opt_or_fin multiplier _ Hm) as [k Ek]. rewrite Ek. cbn [num_mul].
  replace (k * IZR (- d)) with (- (k * IZR d)) by (rewrite opp_IZR; ring).
  rewrite zoom_undo_settled by exact Hs.
  destruct this; reflexivity.
Qed.

Lemma zoom_in_then_out_restores_witness :
  let this := ImagePlotter.new (Fin 400) (Fin 200) (Fin 100) (Fin 100) opts_cover in
  (reachable this /\ (Z.abs 7 < 1000000000000000000000)%Z) /\
  snd (ImagePlotter.zoom (zoom_call (VNumber (Fin (IZR (- 7)))) (Some 3))
         (snd (ImagePlotter.zoom (zoom_call (VNumber (Fin (IZR 7))) (Some 3)) this))) =
  this.
Proof.
  cbv zeta.
  assert (Hr : reachable (ImagePlotter.new (Fin 400) (Fin 200) (Fin 100) (Fin 100) opts_cover))
    by apply reach_new.
  assert (Hd : (Z.abs 7 < 1000000000000000000000)%Z) by lia.
  split; [split; assumption | ].
  exact (zoom_in_then_out_restores _ 7 (Some 3) Hr Hd).
Defined.

(** The plot and the adjustment of [cover] and [contain] depend on the
    plotter only through its adjustment and the two sizes. *)
Lemma cover_depends_on (p q : ImagePlotter.t) :
  ImagePlotter._state p = ImagePlotter._state q ->
  Clip.width (ImagePlotter._image p) = Clip.width (ImagePlotter._image q) ->
  Clip.height (ImagePlotter._image p) = Clip.height (ImagePlotter._image q) ->
  Clip.width (ImagePlotter._canvas p) = Clip.width (ImagePlotter._canvas q) ->
  Clip.height (ImagePlotter._canvas p) = Clip.height (ImagePlotter._canvas q) ->
  fst (ImagePlotter.cover p) = fst (ImagePlotter.cover q) /\
  ImagePlotter._state (snd (ImagePlotter.cover p)) =
    ImagePlotter._state (snd (ImagePlotter.cover q)) /\
  fst (ImagePlotter.contain p) = fst (ImagePlotter.contain q) /\
  ImagePlotter._state (snd (ImagePlotter.contain p)) =
    ImagePlotter._state (snd (ImagePlotter.contain q)).
Proof.
  intros Es Eiw Eih Ecw Ech.
  unfold ImagePlotter.cover, ImagePlotter.contain, ImagePlotter.centerFullSize,
    ImagePlotter.image_clip, ImagePlotter.set_state.
  cbn [ImagePlotter._state ImagePlotter._image ImagePlotter._canvas].
  rewrite Es, Eiw, Eih, Ecw, Ech.
  repeat split; destruct (num_eqb _ _); reflexivity.
Qed.

Lemma init_dispatch (iw ih cw ch : num) (o : ImagePlotter.init_opts) (this : ImagePlotter.t) :
  ImagePlotter.init iw ih cw ch o this =
  if wants_contain o
  then ImagePlotter.contain (prepared_plotter this iw ih cw ch)
  else ImagePlotter.cover (prepared_plotter this iw ih cw ch).
Proof.
  unfold ImagePlotter.init, wants_contain, prepared_plotter.
  destruct (ImagePlotter.orientation o) as [s | ]; reflexivity.
Qed.

Lemma wants_contain_or_cover (o : ImagePlotter.init_opts) :
  wants_contain (ImagePlotter.orientation_or_cover o) = wants_contain o.
Proof.
  unfold wants_contain, ImagePlotter.orientation_or_cover.
  destruct (ImagePlotter.orientation o) as [[ | c s] | ]; reflexivity.
Qed.

(** X9.  [init] is a full reset of the placement.  Called on any plotter,
    whatever panning and zooming came before, with sizes and options, it
    returns the plot that the constructor returns for these sizes and options,
    and leaves the adjustment that the constructor leaves.  The one thing it
    keeps is the field [zoom_multiplier]. *)
Theorem init_forgets_history
        (this : ImagePlotter.t) (iw ih cw ch : num) (o : ImagePlotter.init_opts) :
  fst (ImagePlotter.init iw ih cw ch o this) =
    fst (ImagePlotter.construct iw ih cw ch o) /\
  ImagePlotter._state (snd (ImagePlotter.init iw ih cw ch o this)) =
    ImagePlotter._state (ImagePlotter.new iw ih cw ch o) /\
  ImagePlotter.zoom_multiplier (snd (ImagePlotter.init iw ih cw ch o this)) =
    ImagePlotter.zoom_multiplier this.
Proof.
  unfold ImagePlotter.new, ImagePlotter.construct.
  rewrite !init_dispatch, wants_contain_or_cover.
  destruct (cover_depends_on (prepared_plotter this iw ih cw ch)
                             (prepared_plotter ImagePlotter.blank iw ih cw ch))
    as (C1 & C2 & K1 & K2); try reflexivity.
  assert (M : ImagePlotter.zoom_multiplier
                (snd (ImagePlotter.cover (prepared_plotter this iw ih cw ch))) =
              ImagePlotter.zoom_multiplier this /\
              ImagePlotter.zoom_multiplier
                (snd (ImagePlotter.contain (prepared_plotter this iw ih cw ch))) =
              ImagePlotter.zoom_multiplier this).
  { unfold ImagePlotter.cover, ImagePlotter.contain, ImagePlotter.centerFullSize.
    cbn [ImagePlotter.set_state ImagePlotter._state ImagePlotter._image
         ImagePlotter._canvas].
    split; destruct (num_eqb _ _); reflexivity. }
  destruct M as [Mc Mk].
  destruct (wants_contain o); repeat split; assumption.
Qed.

(** X10.  Every orientation but the string ["contain"] is ["cover"]: the
    constructor with an absent, empty or any other orientation returns the
    plot, and leaves the plotter, of the constructor with ["cover"]. *)
Theorem orientation_defaults_to_cover (iw ih cw ch : num) (o : ImagePlotter.init_opts) :
  ImagePlotter.orientation o <> Some "contain"%string ->
  ImagePlotter.construct iw ih cw ch o = ImagePlotter.construct iw ih cw ch opts_cover.
Proof.
  intros Ho. unfold ImagePlotter.construct.
  rewrite !init_dispatch, !wants_contain_or_cover.
  assert (E : wants_contain o = false).
  { unfold wants_contain. destruct (ImagePlotter.orientation o) as [s | ]; [ | reflexivity].
    apply String.eqb_neq. intros ->. apply Ho. reflexivity. }
  rewrite E. reflexivity.
Qed.

Lemma orientation_defaults_to_cover_witness :
  ImagePlotter.orientation {| ImagePlotter.orientation := Some "Contain"%string |}
    <> Some "contain"%string /\
  ImagePlotter.construct (Fin 400) (Fin 200) (Fin 100) (Fin 100)
    {| ImagePlotter.orientation := Some "Contain"%string |} =
  ImagePlotter.construct (Fin 400) (Fin 200) (Fin 100) (Fin 100) opts_cover.
Proof.
  assert (H : ImagePlotter.orientation {| ImagePlotter.orientation := Some "Contain"%string |}
              <> Some "contain"%string) by (cbn; discriminate).
  split; [exact H | ].
  exact (orientation_defaults_to_cover (Fin 400) (Fin 200) (Fin 100) (Fin 100) _ H).
Defined.

(** ** Images without a size *)

Lemma run_call_all_nan (c : plotter_call) (this : ImagePlotter.t) :
  ImagePlotter._state this = ClipAdjustment.mk NaN NaN NaN NaN NaN ->
  ImagePlotter._state (snd (run_call c this)) = ClipAdjustment.mk NaN NaN NaN NaN NaN /\
  ImagePlot.canvas (fst (run_call c this)) = nan_clip.
Proof.
  destruct this as [m st im cv]. cbn [ImagePlotter._state]. intros ->.
  destruct c as [ | | | dx dy | depth multiplier]; cbn [run_call].
  - split; reflexivity.
  - unfold ImagePlotter.cover, ImagePlotter.centerFullSize.
    cbn [ImagePlotter.set_state ImagePlotter._state ImagePlotter._image
         ImagePlotter._canvas]. destruct (num_eqb _ _); split; reflexivity.
  - unfold ImagePlotter.contain, ImagePlotter.centerFullSize.
    cbn [ImagePlotter.set_state ImagePlotter._state ImagePlotter._image
         ImagePlotter._canvas]. destruct (num_eqb _ _); split; reflexivity.
  - split; reflexivity.
  - split; reflexivity.
Qed.

Lemma prepared_degenerate_all_nan (this : ImagePlotter.t) (iw ih cw ch : R) :
  parsed iw = 0 -> parsed ih = 0 ->
  let p := prepared_plotter this (Fin iw) (Fin ih) (Fin cw) (Fin ch) in
  (ImagePlotter._state (snd (ImagePlotter.cover p)) = ClipAdjustment.mk NaN NaN NaN NaN NaN /\
   ImagePlot.canvas (fst (ImagePlotter.cover p)) = nan_clip) /\
  (ImagePlotter._state (snd (ImagePlotter.contain p)) = ClipAdjustment.mk NaN NaN NaN NaN NaN /\
   ImagePlot.canvas (fst (ImagePlotter.contain p)) = nan_clip).
Proof.
  intros HW HH p. subst p. unfold prepared_plotter.
  rewrite new_adjustment_degenerate by assumption.
  unfold ImagePlotter.cover, ImagePlotter.contain, ImagePlotter.centerFullSize.
  cbn [ImagePlotter.set_state ImagePlotter._state ImagePlotter._image
       ImagePlotter._canvas snd fst].
  split; destruct (num_eqb _ _); split; reflexivity.
Qed.

(** X11.  An image of which [parseInt] reads the size 0 by 0 has no ratios:
    whatever the canvas and the orientation, the rectangle the constructor
    returns has [NaN] for left, top, width and height, and so has the
    rectangle every later call returns. *)
Theorem sizeless_image_gives_nan
        (iw ih cw ch : R) (o : ImagePlotter.init_opts)
        (calls : list plotter_call) (c : plotter_call) :
  parsed iw = 0 -> parsed ih = 0 ->
  ImagePlot.canvas (fst (ImagePlotter.construct (Fin iw) (Fin ih) (Fin cw) (Fin ch) o)) =
    nan_clip /\
  ImagePlot.canvas
    (fst (run_call c (run_calls calls
                        (ImagePlotter.new (Fin iw) (Fin ih) (Fin cw) (Fin ch) o)))) =
    nan_clip.
Proof.
  intros HW HH.
  destruct (prepared_degenerate_all_nan ImagePlotter.blank iw ih cw ch HW HH)
    as [[Cs Cp] [Ks Kp]].
  assert (Start : ImagePlot.canvas
                    (fst (ImagePlotter.construct (Fin iw) (Fin ih) (Fin cw) (Fin ch) o)) =
                  nan_clip /\
                  ImagePlotter._state
                    (ImagePlotter.new (Fin iw) (Fin ih) (Fin cw) (Fin ch) o) =
                  ClipAdjustment.mk NaN NaN NaN NaN NaN).
  { unfold ImagePlotter.new, ImagePlotter.construct. rewrite init_dispatch.
    destruct (wants_contain _); split; assumption. }
  destruct Start as [S0 S1]. split; [exact S0 | ].
  apply run_call_all_nan.
  generalize dependent (ImagePlotter.new (Fin iw) (Fin ih) (Fin cw) (Fin ch) o).
  induction calls as [ | k calls IH]; intros p Hp; [exact Hp | ].
  unfold run_calls in *. cbn [fold_left]. apply IH.
  apply run_call_all_nan. exact Hp.
Qed.

Lemma sizeless_image_gives_nan_witness :
  (parsed 0 = 0 /\ parsed 0 = 0) /\
  ImagePlot.canvas (fst (ImagePlotter.construct (Fin 0) (Fin 0) (Fin 100) (Fin 100) opts_cover)) =
    nan_clip /\
  ImagePlot.canvas
    (fst (run_call (PMove 1 2)
            (run_calls [PCover; PZoom (VNumber (Fin 3)) None]
               (ImagePlotter.new (Fin 0) (Fin 0) (Fin 100) (Fin 100) opts_cover)))) =
    nan_clip.
Proof.
  assert (H : parsed 0 = 0) by (apply (parsed_IZR 0); lia).
  split; [split; exact H | ].
  exact (sizeless_image_gives_nan 0 0 100 100 opts_cover
           [PCover; PZoom (VNumber (Fin 3)) None] (PMove 1 2) H H).
Defined.

Lemma Rsign_inf_pos (r : R) : 0 < r -> Rsign_inf r = PInf.
Proof.
  intros Hr. unfold Rsign_inf. destruct (Rlt_dec 0 r); [reflexivity | contradiction].
Qed.

(** X12.  An image of width 0 and a positive whole height, covering a canvas
    of positive width: [cover] picks the width, divides by the ratio 0, and
    zooms by [+Infinity].  The rectangle has left [NaN], top [-Infinity],
    width [NaN] and height [+Infinity]. *)
Theorem widthless_image_cover (ih : Z) (cw ch : R) (o : ImagePlotter.init_opts) :
  (0 < ih < 1000000000000000000000)%Z -> 0 < cw -> wants_contain o = false ->
  ImagePlot.canvas
    (fst (ImagePlotter.construct (Fin 0) (Fin (IZR ih)) (Fin cw) (Fin ch) o)) =
  Clip.new NaN NInf NaN PInf.
Proof.
  intros Hh Hcw Ho.
  rewrite (construct_integer 0 ih cw ch o) by (try right; lia). rewrite Ho.
  assert (PH : 0 < IZR ih) by (apply IZR_lt; lia).
  pose proof (diag_pos 0 (IZR ih) (or_intror (Rgt_not_eq _ _ PH))) as Hd.
  unfold unfitted. set (D := diag 0 (IZR ih)) in *.
  replace (0 / D) with 0 by (unfold Rdiv; ring).
  assert (Pc : 0 < IZR ih / D) by (apply Rdiv_lt_0_compat; assumption).
  unfold_plotter. rewrite Math_min_branch.
  destruct (Rle_dec 0 (IZR ih)) as [_ | N]; [ | lra].
  unfold ClipAdjustment.calcHypDifferenceByWidth, ClipAdjustment.zoom,
    ClipAdjustment.getState, ClipAdjustment.getX, ClipAdjustment.getY,
    ClipAdjustment.getWidth, ClipAdjustment.getHeight.
  cbn [ClipAdjustment._x ClipAdjustment._y ClipAdjustment._hyp ClipAdjustment._sin
       ClipAdjustment._cos fst ImagePlot.canvas].
  unfold num_div. destruct (Req_dec_T 0 0) as [_ | N]; [ | contradiction N; reflexivity].
  rewrite (Rsign_inf_pos cw) by exact Hcw.
  cbn [num_sub num_neg num_add num_mul].
  rewrite (Rsign_inf_pos (1 / 2)) by lra. cbn [num_mul num_neg num_add].
  rewrite Rsign_inf_zero, (Rsign_inf_pos (IZR ih / D)) by exact Pc.
  reflexivity.
Qed.

Lemma widthless_image_cover_witness :
  ((0 < 5 < 1000000000000000000000)%Z /\ 0 < 10 /\ wants_contain opts_cover = false) /\
  ImagePlot.canvas
    (fst (ImagePlotter.construct (Fin 0) (Fin (IZR 5)) (Fin 10) (Fin 10) opts_cover)) =
  Clip.new NaN NInf NaN PInf.
Proof.
  assert (H1 : (0 < 5 < 1000000000000000000000)%Z) by lia.
  assert (H2 : 0 < 10) by lra.
  assert (H3 : wants_contain opts_cover = false) by reflexivity.
  split; [repeat split; assumption | ].
  exact (widthless_image_cover 5 10 10 opts_cover H1 H2 H3).
Defined.

(** ** The rectangle the constructor returns for whole-pixel images *)

Ltac whole_pixel_facts iw ih :=
  assert (PW : 0 < IZR iw) by (apply IZR_lt; lia);
  assert (PH : 0 < IZR ih) by (apply IZR_lt; lia);
  pose proof (diag_pos (IZR iw) (IZR ih) (or_introl (Rgt_not_eq _ _ PW))) as Hd;
  assert (Hs : IZR iw / diag (IZR iw) (IZR ih) <> 0) by (apply sin_ratio_nonzero; lra);
  assert (Hc : IZR ih / diag (IZR iw) (IZR ih) <> 0) by (apply cos_ratio_nonzero; lra).

Ltac clip_fields :=
  unfold ClipAdjustment.getState, ClipAdjustment.getX, ClipAdjustment.getY,
    ClipAdjustment.getWidth, ClipAdjustment.getHeight, fitted_to_width, fitted_to_height;
  cbn [ClipAdjustment._x ClipAdjustment._y ClipAdjustment._hyp ClipAdjustment._sin
       ClipAdjustment._cos num_mul];
  f_equal; apply f_equal; field; lra.

(** Fitted by the width, the rectangle spans the width of the canvas and is
    centred vertically. *)
Lemma unfitted_width_rectangle (iw ih : Z) (cw ch : R) :
  (0 < iw)%Z -> (0 < ih)%Z ->
  ClipAdjustment.getState
    (fitted_to_width 0 0 (diag (IZR iw) (IZR ih))
       (IZR iw / diag (IZR iw) (IZR ih)) (IZR ih / diag (IZR iw) (IZR ih))
       (IZR iw) (IZR ih) cw ch) =
  Clip.new (Fin 0) (Fin ((ch - cw * IZR ih / IZR iw) / 2))
           (Fin cw) (Fin (cw * IZR ih / IZR iw)).
Proof.
  intros Hw Hh. whole_pixel_facts iw ih. clip_fields.
Qed.

(** Fitted by the height, it spans the height and is centred horizontally. *)
Lemma unfitted_height_rectangle (iw ih : Z) (cw ch : R) :
  (0 < iw)%Z -> (0 < ih)%Z ->
  ClipAdjustment.getState
    (fitted_to_height 0 0 (diag (IZR iw) (IZR ih))
       (IZR iw / diag (IZR iw) (IZR ih)) (IZR ih / diag (IZR iw) (IZR ih))
       (IZR iw) (IZR ih) cw ch) =
  Clip.new (Fin ((cw - ch * IZR iw / IZR ih) / 2)) (Fin 0)
           (Fin (ch * IZR iw / IZR ih)) (Fin ch).
Proof.
  intros Hw Hh. whole_pixel_facts iw ih. clip_fields.
Qed.

Lemma constructor_fit (iw ih : Z) (cw ch : R) (o : ImagePlotter.init_opts) :
  (0 < iw < 1000000000000000000000)%Z -> (0 < ih < 1000000000000000000000)%Z ->
  let D := diag (IZR iw) (IZR ih) in
  ImagePlotter.construct (Fin (IZR iw)) (Fin (IZR ih)) (Fin cw) (Fin ch) o =
  let st :=
    if fits_width o iw ih
    then fitted_to_width 0 0 D (IZR iw / D) (IZR ih / D) (IZR iw) (IZR ih) cw ch
    else fitted_to_height 0 0 D (IZR iw / D) (IZR ih / D) (IZR iw) (IZR ih) cw ch in
  (ImagePlot.mk (Clip.new (Fin 0) (Fin 0) (Fin (IZR iw)) (Fin (IZR ih)))
                (ClipAdjustment.getState st),
   ImagePlotter.set_state st (unfitted iw ih cw ch)).
Proof.
  intros Hw Hh D. whole_pixel_facts iw ih.
  rewrite construct_integer by (try left; lia).
  unfold fits_width, unfitted. fold D.
  destruct (wants_contain o).
  - destruct (Z.leb_spec ih iw) as [L | L].
    + apply contain_width_fin; [exact Hs | apply IZR_le; exact L].
    + apply contain_height_fin; [exact Hc | apply IZR_lt; exact L].
  - destruct (Z.leb_spec iw ih) as [L | L].
    + apply cover_width_fin; [exact Hs | apply IZR_le; exact L].
    + apply cover_height_fin; [exact Hc | apply IZR_lt; exact L].
Qed.

(** X13.  In exact arithmetic (real numbers in place of binary64: no
    rounding and no overflow), for an image of [iw] by [ih] whole pixels,
    both positive and below 1e21, and any finite canvas of [cw] by [ch], the
    rectangle the constructor returns is: when it fits the width, the
    rectangle of width [cw] and height [cw * ih / iw] at left 0, centred
    vertically; when it fits the height, the rectangle of width
    [ch * iw / ih] and height [ch] at top 0, centred horizontally. *)
Theorem constructor_rectangle (iw ih : Z) (cw ch : R) (o : ImagePlotter.init_opts) :
  (0 < iw < 1000000000000000000000)%Z -> (0 < ih < 1000000000000000000000)%Z ->
  ImagePlot.canvas
    (fst (ImagePlotter.construct (Fin (IZR iw)) (Fin (IZR ih)) (Fin cw) (Fin ch) o)) =
  if fits_width o iw ih
  then Clip.new (Fin 0) (Fin ((ch - cw * IZR ih / IZR iw) / 2))
                (Fin cw) (Fin (cw * IZR ih / IZR iw))
  else Clip.new (Fin ((cw - ch * IZR iw / IZR ih) / 2)) (Fin 0)
                (Fin (ch * IZR iw / IZR ih)) (Fin ch).
Proof.
  intros Hw Hh. rewrite constructor_fit by assumption. cbv zeta.
  cbn [fst ImagePlot.canvas].
  destruct (fits_width o iw ih).
  - apply unfitted_width_rectangle; lia.
  - apply unfitted_height_rectangle; lia.
Qed.

Lemma constructor_rectangle_witness :
  ((0 < 400 < 1000000000000000000000)%Z /\ (0 < 200 < 1000000000000000000000)%Z) /\
  ImagePlot.canvas
    (fst (ImagePlotter.construct (Fin (IZR 400)) (Fin (IZR 200)) (Fin 100) (Fin 100)
            opts_contain)) =
  if fits_width opts_contain 400 200
  then Clip.new (Fin 0) (Fin ((100 - 100 * IZR 200 / IZR 400) / 2))
                (Fin 100) (Fin (100 * IZR 200 / IZR 400))
  else Clip.new (Fin ((100 - 100 * IZR 400 / IZR 200) / 2)) (Fin 0)
                (Fin (100 * IZR 400 / IZR 200)) (Fin 100).
Proof.
  assert (H1 : (0 < 400 < 1000000000000000000000)%Z) by lia.
  assert (H2 : (0 < 200 < 1000000000000000000000)%Z) by lia.
  split; [split; assumption | ].
  exact (constructor_rectangle 400 200 100 100 opts_contain H1 H2).
Defined.

(** X14.  In exact arithmetic (real numbers in place of binary64: no
    rounding and no overflow), when the canvas has the aspect ratio of the
    image ([cw * ih = ch * iw]), the constructor returns exactly the canvas,
    [{0, 0, cw, ch}], with either orientation. *)
Theorem same_aspect_ratio_fills_canvas
        (iw ih : Z) (cw ch : R) (o : ImagePlotter.init_opts) :
  (0 < iw < 1000000000000000000000)%Z -> (0 < ih < 1000000000000000000000)%Z ->
  cw * IZR ih = ch * IZR iw ->
  ImagePlot.canvas
    (fst (ImagePlotter.construct (Fin (IZR iw)) (Fin (IZR ih)) (Fin cw) (Fin ch) o)) =
  Clip.new (Fin 0) (Fin 0) (Fin cw) (Fin ch).
Proof.
  intros Hw Hh Hr. rewrite constructor_fit by assumption. cbv zeta.
  cbn [fst ImagePlot.canvas]. whole_pixel_facts iw ih.
  assert (E1 : cw * IZR ih / IZR iw = ch) by (rewrite Hr; field; lra).
  assert (E2 : ch * IZR iw / IZR ih = cw) by (rewrite <- Hr; field; lra).
  destruct (fits_width o iw ih).
  - rewrite unfitted_width_rectangle by lia. rewrite E1.
    f_equal. apply f_equal. lra.
  - rewrite unfitted_height_rectangle by lia. rewrite E2.
    f_equal. apply f_equal. lra.
Qed.

Lemma same_aspect_ratio_fills_canvas_witness :
  ((0 < 400 < 1000000000000000000000)%Z /\ (0 < 200 < 1000000000000000000000)%Z /\
   100 * IZR 200 = 50 * IZR 400) /\
  ImagePlot.canvas
    (fst (ImagePlotter.construct (Fin (IZR 400)) (Fin (IZR 200)) (Fin 100) (Fin 50)
            opts_cover)) =
  Clip.new (Fin 0) (Fin 0) (Fin 100) (Fin 50).
Proof.
  assert (H1 : (0 < 400 < 1000000000000000000000)%Z) by lia.
  assert (H2 : (0 < 200 < 1000000000000000000000)%Z) by lia.
  assert (H3 : 100 * IZR 200 = 50 * IZR 400) by lra.
  split; [split; [exact H1 | split; [exact H2 | exact H3]] | ].
  exact (same_aspect_ratio_fills_canvas 400 200 100 50 opts_cover H1 H2 H3).
Defined.

Lemma refit_fitted (iw ih : Z) (cw ch : R) (o : ImagePlotter.init_opts) :
  (0 < iw < 1000000000000000000000)%Z -> (0 < ih < 1000000000000000000000)%Z ->
  exists l t w h : R,
    fst (ImagePlotter.construct (Fin (IZR iw)) (Fin (IZR ih)) (Fin cw) (Fin ch) o) =
      ImagePlot.mk (Clip.new (Fin 0) (Fin 0) (Fin (IZR iw)) (Fin (IZR ih)))
        (Clip.new (Fin l) (Fin t) (Fin w) (Fin h)) /\
    fst (refit o (ImagePlotter.new (Fin (IZR iw)) (Fin (IZR ih)) (Fin cw) (Fin ch) o)) =
      ImagePlot.mk (Clip.new (Fin 0) (Fin 0) (Fin (IZR iw)) (Fin (IZR ih)))
        (Clip.new (Fin (l - (IZR iw - cw) / 2)) (Fin (t - (IZR ih - ch) / 2))
                  (Fin w) (Fin h)).
Proof.
  intros Hw Hh. unfold ImagePlotter.new. rewrite constructor_fit by assumption.
  cbv zeta. cbn [fst snd]. whole_pixel_facts iw ih.
  unfold refit, fits_width, unfitted.
  set (D := diag (IZR iw) (IZR ih)) in *.
  destruct (wants_contain o).
  - destruct (Z.leb_spec ih iw) as [L | L].
    + unfold fitted_to_width at 2. rewrite set_state_fin.
      rewrite contain_width_fin by (try exact Hs; apply IZR_le; exact L).
      cbn [fst]. do 4 eexists. split; f_equal; clip_fields.
    + unfold fitted_to_height at 2. rewrite set_state_fin.
      rewrite contain_height_fin by (try exact Hc; apply IZR_lt; exact L).
      cbn [fst]. do 4 eexists. split; f_equal; clip_fields.
  - destruct (Z.leb_spec iw ih) as [L | L].
    + unfold fitted_to_width at 2. rewrite set_state_fin.
      rewrite cover_width_fin by (try exact Hs; apply IZR_le; exact L).
      cbn [fst]. do 4 eexists. split; f_equal; clip_fields.
    + unfold fitted_to_height at 2. rewrite set_state_fin.
      rewrite cover_height_fin by (try exact Hc; apply IZR_lt; exact L).
      cbn [fst]. do 4 eexists. split; f_equal; clip_fields.
Qed.

(** X15.  In exact arithmetic (real numbers in place of binary64: no
    rounding and no overflow), the fit is not idempotent in position.  On the
    plotter the constructor leaves for a whole-pixel image, calling the fit
    of its orientation again ([cover()], or [contain()] for ["contain"])
    returns the rectangle of the constructor with the same width and height,
    moved by [(-(iw - cw) / 2, -(ih - ch) / 2)]; the two plots are equal
    exactly when the canvas has the size of the image. *)
Theorem refit_translates (iw ih : Z) (cw ch : R) (o : ImagePlotter.init_opts) :
  (0 < iw < 1000000000000000000000)%Z -> (0 < ih < 1000000000000000000000)%Z ->
  let built := ImagePlotter.construct (Fin (IZR iw)) (Fin (IZR ih)) (Fin cw) (Fin ch) o in
  let again := refit o (snd built) in
  (exists l t w h : R,
     ImagePlot.canvas (fst built) = Clip.new (Fin l) (Fin t) (Fin w) (Fin h) /\
     ImagePlot.canvas (fst again) =
       Clip.new (Fin (l - (IZR iw - cw) / 2)) (Fin (t - (IZR ih - ch) / 2))
                (Fin w) (Fin h)) /\
  (fst again = fst built <-> IZR iw = cw /\ IZR ih = ch).
Proof.
  intros Hw Hh built again.
  destruct (refit_fitted iw ih cw ch o Hw Hh) as (l & t & w & h & E0 & E1).
  fold built in E0. unfold ImagePlotter.new in E1. fold built in E1. fold again in E1.
  rewrite E0, E1. cbn [ImagePlot.canvas]. split.
  - exists l, t, w, h. split; reflexivity.
  - split.
    + intros E. injection E as Ex Ey. lra.
    + intros [Ex Ey]. f_equal. f_equal; apply f_equal; lra.
Qed.

Lemma refit_translates_witness :
  ((0 < 400 < 1000000000000000000000)%Z /\ (0 < 200 < 1000000000000000000000)%Z) /\
  let built := ImagePlotter.construct (Fin (IZR 400)) (Fin (IZR 200)) (Fin 100) (Fin 100)
                 opts_cover in
  let again := refit opts_cover (snd built) in
  (exists l t w h : R,
     ImagePlot.canvas (fst built) = Clip.new (Fin l) (Fin t) (Fin w) (Fin h) /\
     ImagePlot.canvas (fst again) =
       Clip.new (Fin (l - (IZR 400 - 100) / 2)) (Fin (t - (IZR 200 - 100) / 2))
                (Fin w) (Fin h)) /\
  (fst again = fst built <-> IZR 400 = 100 /\ IZR 200 = 100).
Proof.
  assert (H1 : (0 < 400 < 1000000000000000000000)%Z) by lia.
  assert (H2 : (0 < 200 < 1000000000000000000000)%Z) by lia.
  split; [split; assumption | ].
  exact (refit_translates 400 200 100 100 opts_cover H1 H2).
Defined.

(** ** What no sequence of calls does *)

Lemma parseInt_string_fin_or_nan (s : string) :
  parseInt_string s = NaN \/ is_fin (parseInt_string s).
Proof.
  unfold parseInt_string.
  match goal with |- context [let '(a, b) := ?e in _] => destruct e as [sign s2] end.
  match goal with |- context [let '(a, b) := ?e in _] => destruct e as [radix s3] end.
  destruct (read_digits radix s3 None) as [n | ]; [right; eexists; reflexivity | left; reflexivity].
Qed.

Lemma coerced_depth_fin (depth : value) : is_fin (num_or (parseInt depth) (Fin 0)).
Proof.
  assert (H : parseInt depth = NaN \/ is_fin (parseInt depth)).
  { destruct depth as [ | [r | | | ] | s]; cbn [parseInt parseInt_num];
      try (left; reflexivity); [right; eexists; reflexivity | apply parseInt_string_fin_or_nan]. }
  destruct H as [E | [r E]]; rewrite E; unfold num_or, num_truthy.
  - exists 0. reflexivity.
  - destruct (Req_dec_T r 0); eexists; reflexivity.
Qed.

(** Every call keeps a finite plotter with nonzero ratios finite, with the
    same ratios, and returns the snapshot of the adjustment it leaves. *)
Lemma run_call_finite (s c : R) (k : plotter_call) (this : ImagePlotter.t) :
  finite_with_ratios s c this ->
  finite_with_ratios s c (snd (run_call k this)) /\
  exists l t d : R,
    ImagePlot.canvas (fst (run_call k this)) =
    Clip.new (Fin l) (Fin t) (Fin (s * d)) (Fin (c * d)).
Proof.
  intros (Hs & Hc & m & x & y & d & il & it & iw & ih & cl & ct & cw & ch & ->).
  assert (Shape : forall x' y' d' : R,
    finite_with_ratios s c (fin_plotter (Fin m) x' y' d' s c il it iw ih cl ct cw ch) /\
    exists l t d0 : R,
      ClipAdjustment.getState
        (ClipAdjustment.mk (Fin x') (Fin y') (Fin d') (Fin s) (Fin c)) =
      Clip.new (Fin l) (Fin t) (Fin (s * d0)) (Fin (c * d0))).
  { intros x' y' d'. split.
    - split; [exact Hs | split; [exact Hc | ]]. repeat eexists.
    - exists x', y', d'. reflexivity. }
  destruct k as [ | | | dx dy | depth multiplier]; cbn [run_call].
  - apply (Shape (x + - (iw + - cw) * (1 / 2)) (y + - (ih + - ch) * (1 / 2)) d).
  - destruct (Rle_dec iw ih) as [L | L].
    + rewrite cover_width_fin by assumption. cbn [fst snd ImagePlot.canvas].
      unfold fitted_to_width. rewrite set_state_fin. apply Shape.
    + rewrite cover_height_fin by (try assumption; lra). cbn [fst snd ImagePlot.canvas].
      unfold fitted_to_height. rewrite set_state_fin. apply Shape.
  - destruct (Rle_dec ih iw) as [L | L].
    + rewrite contain_width_fin by assumption. cbn [fst snd ImagePlot.canvas].
      unfold fitted_to_width. rewrite set_state_fin. apply Shape.
    + rewrite contain_height_fin by (try assumption; lra). cbn [fst snd ImagePlot.canvas].
      unfold fitted_to_height. rewrite set_state_fin. apply Shape.
  - apply (Shape (x + dx) (y + dy) d).
  - unfold ImagePlotter.zoom, zoom_call, fin_plotter.
    cbn [ImagePlotter.zoom_depth ImagePlotter.opt_zoom_multiplier
         ImagePlotter.zoom_multiplier ImagePlotter._state fst snd ImagePlot.canvas].
    destruct (coerced_depth_fin depth) as [e Ee]. rewrite Ee.
    destruct (opt_or_fin multiplier (Fin m)) as [q Eq]; [exists m; reflexivity | ].
    rewrite Eq. cbn [num_mul]. rewrite zoom_fin.
    apply (Shape (x + - (q * e * (1 / 2) * s)) (y + - (q * e * (1 / 2) * c)) (d + q * e)).
Qed.

Lemma run_calls_finite (s c : R) (calls : list plotter_call) (this : ImagePlotter.t) :
  finite_with_ratios s c this -> finite_with_ratios s c (run_calls calls this).
Proof.
  revert this. induction calls as [ | k calls IH]; intros this H; [exact H | ].
  unfold run_calls in *. cbn [fold_left]. apply IH. apply run_call_finite. exact H.
Qed.

Lemma new_finite (iw ih cw ch : R) (o : ImagePlotter.init_opts) :
  parsed iw <> 0 -> parsed ih <> 0 ->
  let D := diag (parsed iw) (parsed ih) in
  finite_with_ratios (parsed iw / D) (parsed ih / D)
    (ImagePlotter.new (Fin iw) (Fin ih) (Fin cw) (Fin ch) o).
Proof.
  intros HW HH D. unfold ImagePlotter.new. rewrite construct_fin by (left; exact HW).
  assert (F : finite_with_ratios (parsed iw / D) (parsed ih / D)
                (fresh_plotter ImagePlotter.blank iw ih cw ch)).
  { split; [apply sin_ratio_nonzero; exact HW | split; [apply cos_ratio_nonzero; exact HH | ]].
    unfold fresh_plotter. fold D. cbn [ImagePlotter.blank ImagePlotter.zoom_multiplier].
    repeat eexists. }
  destruct (wants_contain o).
  - apply (run_call_finite _ _ PContain _ F).
  - apply (run_call_finite _ _ PCover _ F).
Qed.

(** X16.  In exact arithmetic (real numbers in place of binary64: no
    rounding and, in particular, no overflow), an image of which [parseInt]
    reads a nonzero width [W] and a nonzero height [H] never gives [NaN] or
    an infinity: after the constructor and any sequence of calls with finite
    arguments, every call returns a rectangle of four finite numbers, and its
    width over its height is [W / H] whenever both are nonzero. *)
Theorem sized_image_stays_finite
        (iw ih cw ch : R) (o : ImagePlotter.init_opts)
        (calls : list plotter_call) (k : plotter_call) :
  parsed iw <> 0 -> parsed ih <> 0 ->
  let this := run_calls calls (ImagePlotter.new (Fin iw) (Fin ih) (Fin cw) (Fin ch) o) in
  exists l t w h : R,
    ImagePlot.canvas (fst (run_call k this)) = Clip.new (Fin l) (Fin t) (Fin w) (Fin h) /\
    (w <> 0 -> h <> 0 -> w / h = parsed iw / parsed ih).
Proof.
  intros HW HH this.
  pose proof (diag_pos (parsed iw) (parsed ih) (or_introl HW)) as Hd.
  set (D := diag (parsed iw) (parsed ih)) in *.
  assert (F : finite_with_ratios (parsed iw / D) (parsed ih / D) this).
  { apply run_calls_finite. apply new_finite; assumption. }
  destruct (run_call_finite _ _ k this F) as [_ (l & t & d & E)].
  exists l, t, (parsed iw / D * d), (parsed ih / D * d). split; [exact E | ].
  intros Nw Nh.
  assert (Nd : d <> 0) by (intros ->; apply Nw; ring).
  field. repeat split; assumption || lra.
Qed.

Lemma sized_image_stays_finite_witness :
  (parsed 400 <> 0 /\ parsed 200 <> 0) /\
  let this := run_calls [PZoom (VString "3") None; PMove 5 5; PContain]
                (ImagePlotter.new (Fin 400) (Fin 200) (Fin 100) (Fin 100) opts_cover) in
  exists l t w h : R,
    ImagePlot.canvas (fst (run_call PCover this)) =
      Clip.new (Fin l) (Fin t) (Fin w) (Fin h) /\
    (w <> 0 -> h <> 0 -> w / h = parsed 400 / parsed 200).
Proof.
  assert (H4 : parsed 400 <> 0) by (rewrite parsed_IZR by lia; lra).
  assert (H2 : parsed 200 <> 0) by (rewrite parsed_IZR by lia; lra).
  split; [split; assumption | ].
  exact (sized_image_stays_finite 400 200 100 100 opts_cover
           [PZoom (VString "3") None; PMove 5 5; PContain] PCover H4 H2).
Defined.

(** What a call leaves alone, and what it returns. *)
Lemma run_call_frame (k : plotter_call) (this : ImagePlotter.t) :
  let after := snd (run_call k this) in
  ImagePlotter._image after = ImagePlotter._image this /\
  ImagePlotter._canvas after = ImagePlotter._canvas this /\
  ImagePlotter.zoom_multiplier after = ImagePlotter.zoom_multiplier this /\
  ClipAdjustment._sin (ImagePlotter._state after) =
    ClipAdjustment._sin (ImagePlotter._state this) /\
  ClipAdjustment._cos (ImagePlotter._state after) =
    ClipAdjustment._cos (ImagePlotter._state this) /\
  fst (run_call k this) =
    ImagePlot.mk (ImagePlotter.image_clip this)
                 (ClipAdjustment.getState (ImagePlotter._state after)).
Proof.
  destruct k as [ | | | dx dy | depth multiplier]; cbn [run_call].
  - repeat split.
  - unfold ImagePlotter.cover, ImagePlotter.centerFullSize.
    cbn [ImagePlotter.set_state ImagePlotter._state ImagePlotter._image
         ImagePlotter._canvas]. destruct (num_eqb _ _); repeat split.
  - unfold ImagePlotter.contain, ImagePlotter.centerFullSize.
    cbn [ImagePlotter.set_state ImagePlotter._state ImagePlotter._image
         ImagePlotter._canvas]. destruct (num_eqb _ _); repeat split.
  - repeat split.
  - repeat split.
Qed.

Lemma run_calls_frame (this : ImagePlotter.t) (calls : list plotter_call) :
  ImagePlotter._image (run_calls calls this) = ImagePlotter._image this /\
  ImagePlotter._canvas (run_calls calls this) = ImagePlotter._canvas this /\
  ImagePlotter.zoom_multiplier (run_calls calls this) = ImagePlotter.zoom_multiplier this /\
  ClipAdjustment._sin (ImagePlotter._state (run_calls calls this)) =
    ClipAdjustment._sin (ImagePlotter._state this) /\
  ClipAdjustment._cos (ImagePlotter._state (run_calls calls this)) =
    ClipAdjustment._cos (ImagePlotter._state this).
Proof.
  revert this. induction calls as [ | c calls IH]; intros this; [repeat split | ].
  unfold run_calls in *. cbn [fold_left].
  destruct (IH (snd (run_call c this))) as (A & B & C & D & E).
  destruct (run_call_frame c this) as (A' & B' & C' & D' & E' & _).
  rewrite A, B, C, D, E. repeat split; assumption.
Qed.

(** X17.  No method but [init] writes the stored sizes, the multiplier or the
    two ratios: after any sequence of [centerFullSize], [cover], [contain],
    [move] and [zoom] calls on any plotter they are what they were, and every
    call returns the image rectangle [{0, 0, image width, image height}]
    paired with the snapshot of the adjustment that the call leaves. *)
Theorem calls_keep_sizes_and_ratios
        (this : ImagePlotter.t) (calls : list plotter_call) (k : plotter_call) :
  let before := run_calls calls this in
  let after := snd (run_call k before) in
  ImagePlotter._image after = ImagePlotter._image this /\
  ImagePlotter._canvas after = ImagePlotter._canvas this /\
  ImagePlotter.zoom_multiplier after = ImagePlotter.zoom_multiplier this /\
  ClipAdjustment._sin (ImagePlotter._state after) =
    ClipAdjustment._sin (ImagePlotter._state this) /\
  ClipAdjustment._cos (ImagePlotter._state after) =
    ClipAdjustment._cos (ImagePlotter._state this) /\
  fst (run_call k before) =
    ImagePlot.mk (Clip.new (Fin 0) (Fin 0) (Clip.width (ImagePlotter._image this))
                           (Clip.height (ImagePlotter._image this)))
                 (ClipAdjustment.getState (ImagePlotter._state after)).
Proof.
  cbv zeta.
  destruct (run_calls_frame this calls) as (A & B & C & D & E).
  destruct (run_call_frame k (run_calls calls this)) as (A' & B' & C' & D' & E' & P).
  rewrite A', B', C', D', E', P. unfold ImagePlotter.image_clip. rewrite A.
  repeat split; assumption.
Qed.

(** The sizes and the multiplier the constructor stores. *)
Lemma new_frame (iw ih cw ch : num) (o : ImagePlotter.init_opts) :
  ImagePlotter._image (ImagePlotter.new iw ih cw ch o) = Clip.new (Fin 0) (Fin 0) iw ih /\
  ImagePlotter._canvas (ImagePlotter.new iw ih cw ch o) = Clip.new (Fin 0) (Fin 0) cw ch /\
  ImagePlotter.zoom_multiplier (ImagePlotter.new iw ih cw ch o) = Fin 1.
Proof.
  unfold ImagePlotter.new, ImagePlotter.construct. rewrite init_dispatch.
  destruct (wants_contain _).
  - destruct (run_call_frame PContain
                (prepared_plotter ImagePlotter.blank iw ih cw ch)) as (A & B & C & _).
    cbn [run_call] in A, B, C. rewrite A, B, C. repeat split.
  - destruct (run_call_frame PCover
                (prepared_plotter ImagePlotter.blank iw ih cw ch)) as (A & B & C & _).
    cbn [run_call] in A, B, C. rewrite A, B, C. repeat split.
Qed.

(** The plotter for a sized image after any calls: finite, with the ratios
    and the sizes of the construction and the multiplier 1. *)
Lemma sized_plotter_shape (iw ih cw ch : R) (o : ImagePlotter.init_opts)
      (calls : list plotter_call) :
  parsed iw <> 0 -> parsed ih <> 0 ->
  let D := diag (parsed iw) (parsed ih) in
  exists x y d : R,
    run_calls calls (ImagePlotter.new (Fin iw) (Fin ih) (Fin cw) (Fin ch) o) =
    fin_plotter (Fin 1) x y d (parsed iw / D) (parsed ih / D)
                (Fin 0) (Fin 0) iw ih (Fin 0) (Fin 0) cw ch.
Proof.
  intros HW HH D.
  destruct (run_calls_finite _ _ calls _ (new_finite iw ih cw ch o HW HH))
    as (_ & _ & m & x & y & d & il & it & iw' & ih' & cl & ct & cw' & ch' & E).
  fold D in E.
  destruct (run_calls_frame (ImagePlotter.new (Fin iw) (Fin ih) (Fin cw) (Fin ch) o) calls)
    as (A & B & C & _).
  destruct (new_frame (Fin iw) (Fin ih) (Fin cw) (Fin ch) o) as (A0 & B0 & C0).
  rewrite A0 in A. rewrite B0 in B. rewrite C0 in C. rewrite E in A, B, C.
  unfold fin_plotter in A, B, C.
  cbn [ImagePlotter._image ImagePlotter._canvas ImagePlotter.zoom_multiplier] in A, B, C.
  injection A as -> -> -> ->. injection B as -> -> -> ->. injection C as ->.
  exists x, y, d. exact E.
Qed.

(** ** [Clip] *)

(** X18.  A clip with finite sides is exactly one of square, horizontal and
    vertical; a clip with a side that is [NaN] is none of them. *)
Theorem clip_shape (l t other : num) (w h : R) :
  let c := Clip.new l t (Fin w) (Fin h) in
  let c1 := Clip.new l t NaN other in
  let c2 := Clip.new l t other NaN in
  ((Clip.is_square c = true /\ Clip.is_horizontal c = false /\ Clip.is_vertical c = false /\
    w = h) \/
   (Clip.is_square c = false /\ Clip.is_horizontal c = true /\ Clip.is_vertical c = false /\
    h < w) \/
   (Clip.is_square c = false /\ Clip.is_horizontal c = false /\ Clip.is_vertical c = true /\
    w < h)) /\
  (Clip.is_square c1 = false /\ Clip.is_horizontal c1 = false /\ Clip.is_vertical c1 = false) /\
  (Clip.is_square c2 = false /\ Clip.is_horizontal c2 = false /\ Clip.is_vertical c2 = false).
Proof.
  cbv zeta. unfold Clip.is_square, Clip.is_horizontal, Clip.is_vertical.
  cbn [Clip.width Clip.height]. split.
  - unfold num_eqb, num_ltb.
    destruct (Req_dec_T w h) as [E | N], (Rlt_dec h w) as [L | L], (Rlt_dec w h) as [G | G];
      try lra; auto 10.
  - destruct other; repeat split.
Qed.

(** X19.  The two ratios of a clip are unguarded divisions.  In exact
    arithmetic (real numbers in place of binary64: no rounding, and one zero,
    without a sign), for finite nonzero sides they are finite and
    reciprocal; for a side of length zero the ratio over it is [+Infinity]
    when the other side is positive and [NaN] when the other side is zero
    too. *)
Theorem clip_ratios (l t : num) (w h : R) :
  (w <> 0 -> h <> 0 ->
   (Clip.width_to_height_ratio (Clip.new l t (Fin w) (Fin h)) *
    Clip.height_to_width_ratio (Clip.new l t (Fin w) (Fin h)))%js = Fin 1) /\
  (0 < w -> Clip.width_to_height_ratio (Clip.new l t (Fin w) (Fin 0)) = PInf) /\
  Clip.width_to_height_ratio (Clip.new l t (Fin 0) (Fin 0)) = NaN /\
  Clip.height_to_width_ratio (Clip.new l t (Fin 0) (Fin 0)) = NaN.
Proof.
  unfold Clip.width_to_height_ratio, Clip.height_to_width_ratio.
  cbn [Clip.width Clip.height]. repeat split.
  - intros Hw Hh. rewrite !num_div_fin by assumption. cbn [num_mul]. f_equal. field.
    split; assumption.
  - intros Hw. unfold num_div. destruct (Req_dec_T 0 0) as [_ | N]; [ | contradiction N; reflexivity].
    apply Rsign_inf_pos. exact Hw.
  - apply num_div_zero_zero.
  - apply num_div_zero_zero.
Qed.

(** ** Fitting and zooming after a history of calls *)

(** X20.  In exact arithmetic (real numbers in place of binary64: no
    rounding and no overflow), [cover()] and [contain()] restore the size
    whatever came before.  For an image of which [parseInt] reads a nonzero
    width [W] and a nonzero height [H], after the constructor and any
    sequence of calls with finite arguments, the rectangle that [cover()]
    returns has the width of the canvas and the height [cw * H / W] when
    [iw <= ih], and the width [ch * W / H] and the height of the canvas
    otherwise; [contain()] does the same with the comparison [ih <= iw]. *)
Theorem fits_restore_size
        (iw ih cw ch : R) (o : ImagePlotter.init_opts) (calls : list plotter_call) :
  parsed iw <> 0 -> parsed ih <> 0 ->
  let this := run_calls calls (ImagePlotter.new (Fin iw) (Fin ih) (Fin cw) (Fin ch) o) in
  let by_width := (cw, cw * parsed ih / parsed iw) in
  let by_height := (ch * parsed iw / parsed ih, ch) in
  let size (plot : ImagePlot.t) (wh : R * R) :=
    Clip.width (ImagePlot.canvas plot) = Fin (fst wh) /\
    Clip.height (ImagePlot.canvas plot) = Fin (snd wh) in
  size (fst (ImagePlotter.cover this)) (if Rle_dec iw ih then by_width else by_height) /\
  size (fst (ImagePlotter.contain this)) (if Rle_dec ih iw then by_width else by_height).
Proof.
  intros HW HH this by_width by_height size.
  destruct (sized_plotter_shape iw ih cw ch o calls HW HH) as (x & y & d & E).
  fold this in E. rewrite E.
  pose proof (diag_pos (parsed iw) (parsed ih) (or_introl HW)) as Hd.
  set (D := diag (parsed iw) (parsed ih)) in *.
  assert (Hs : parsed iw / D <> 0) by (apply sin_ratio_nonzero; exact HW).
  assert (Hc : parsed ih / D <> 0) by (apply cos_ratio_nonzero; exact HH).
  unfold size, by_width, by_height.
  split.
  - destruct (Rle_dec iw ih) as [L | L].
    + rewrite cover_width_fin by assumption.
      cbn [fst snd ImagePlot.canvas ClipAdjustment.getState Clip.width Clip.height].
      destruct (fitted_to_width_size x y d (parsed iw / D) (parsed ih / D) iw ih cw ch Hs)
        as [Ew Eh]. rewrite Ew, Eh. split; [reflexivity | ]. apply f_equal. field. lra.
    + rewrite cover_height_fin by (try assumption; lra).
      cbn [fst snd ImagePlot.canvas ClipAdjustment.getState Clip.width Clip.height].
      destruct (fitted_to_height_size x y d (parsed iw / D) (parsed ih / D) iw ih cw ch Hc)
        as [Ew Eh]. rewrite Ew, Eh. split; [ | reflexivity]. apply f_equal. field. lra.
  - destruct (Rle_dec ih iw) as [L | L].
    + rewrite contain_width_fin by assumption.
      cbn [fst snd ImagePlot.canvas ClipAdjustment.getState Clip.width Clip.height].
      destruct (fitted_to_width_size x y d (parsed iw / D) (parsed ih / D) iw ih cw ch Hs)
        as [Ew Eh]. rewrite Ew, Eh. split; [reflexivity | ]. apply f_equal. field. lra.
    + rewrite contain_height_fin by (try assumption; lra).
      cbn [fst snd ImagePlot.canvas ClipAdjustment.getState Clip.width Clip.height].
      destruct (fitted_to_height_size x y d (parsed iw / D) (parsed ih / D) iw ih cw ch Hc)
        as [Ew Eh]. rewrite Ew, Eh. split; [ | reflexivity]. apply f_equal. field. lra.
Qed.

Lemma fits_restore_size_witness :
  (parsed 400 <> 0 /\ parsed 200 <> 0) /\
  let this := run_calls [PZoom (VNumber (Fin 25)) (Some 2); PMove 5 5]
                (ImagePlotter.new (Fin 400) (Fin 200) (Fin 100) (Fin 100) opts_cover) in
  let by_width := (100, 100 * parsed 200 / parsed 400) in
  let by_height := (100 * parsed 400 / parsed 200, 100) in
  let size (plot : ImagePlot.t) (wh : R * R) :=
    Clip.width (ImagePlot.canvas plot) = Fin (fst wh) /\
    Clip.height (ImagePlot.canvas plot) = Fin (snd wh) in
  size (fst (ImagePlotter.cover this)) (if Rle_dec 400 200 then by_width else by_height) /\
  size (fst (ImagePlotter.contain this)) (if Rle_dec 200 400 then by_width else by_height).
Proof.
  assert (H4 : parsed 400 <> 0) by (rewrite parsed_IZR by lia; lra).
  assert (H2 : parsed 200 <> 0) by (rewrite parsed_IZR by lia; lra).
  split; [split; assumption | ].
  exact (fits_restore_size 400 200 100 100 opts_cover
           [PZoom (VNumber (Fin 25)) (Some 2); PMove 5 5] H4 H2).
Defined.

Lemma opt_or_nonneg (multiplier : option R) :
  (forall m, multiplier = Some m -> 0 <= m) ->
  exists q : R, 0 < q /\ opt_or (option_map Fin multiplier) (Fin 1) = Fin q.
Proof.
  intros Hm. destruct multiplier as [m | ]; cbn [option_map opt_or].
  - unfold num_or, num_truthy. destruct (Req_dec_T m 0) as [E | N].
    + exists 1. split; [lra | reflexivity].
    + exists m. split; [ | reflexivity]. specialize (Hm m eq_refl). lra.
  - exists 1. split; [lra | reflexivity].
Qed.

(** X21.  In exact arithmetic (real numbers in place of binary64: no
    rounding, so that no amount is absorbed, and no overflow), a positive
    depth zooms in and a negative depth zooms out.  For an image of which
    [parseInt] reads a positive width and height, after the constructor and
    any sequence of calls with finite arguments, [zoom] with a whole depth
    [d] (below 1e21 in magnitude) and no multiplier, or a multiplier that is
    not negative, returns a rectangle that is wider and higher than the
    snapshot before the call when [d > 0], narrower and lower when [d < 0],
    and of the same size when [d = 0]. *)
Theorem zoom_depth_sign
        (iw ih cw ch : R) (o : ImagePlotter.init_opts) (calls : list plotter_call)
        (d : Z) (multiplier : option R) :
  0 < parsed iw -> 0 < parsed ih ->
  (Z.abs d < 1000000000000000000000)%Z ->
  (forall m, multiplier = Some m -> 0 <= m) ->
  let this := run_calls calls (ImagePlotter.new (Fin iw) (Fin ih) (Fin cw) (Fin ch) o) in
  let before := ClipAdjustment.getState (ImagePlotter._state this) in
  let after :=
    ImagePlot.canvas
      (fst (ImagePlotter.zoom (zoom_call (VNumber (Fin (IZR d))) multiplier) this)) in
  exists w0 h0 w1 h1 : R,
    Clip.width before = Fin w0 /\ Clip.height before = Fin h0 /\
    Clip.width after = Fin w1 /\ Clip.height after = Fin h1 /\
    ((0 < d)%Z -> w0 < w1 /\ h0 < h1) /\
    ((d < 0)%Z -> w1 < w0 /\ h1 < h0) /\
    (d = 0%Z -> w1 = w0 /\ h1 = h0).
Proof.
  intros HW HH Hd Hm this before after.
  destruct (sized_plotter_shape iw ih cw ch o calls) as (x & y & dg & E); try lra.
  fold this in E. subst before after. rewrite E.
  pose proof (diag_pos (parsed iw) (parsed ih) (or_introl (Rgt_not_eq _ _ HW))) as HD.
  set (D := diag (parsed iw) (parsed ih)) in *.
  assert (Ps : 0 < parsed iw / D) by (apply Rdiv_lt_0_compat; assumption).
  assert (Pc : 0 < parsed ih / D) by (apply Rdiv_lt_0_compat; assumption).
  destruct (opt_or_nonneg multiplier Hm) as (q & Hq & Eq).
  unfold ImagePlotter.zoom, zoom_call, fin_plotter.
  cbn [ImagePlotter.zoom_depth ImagePlotter.opt_zoom_multiplier
       ImagePlotter.zoom_multiplier ImagePlotter._state fst ImagePlot.canvas].
  rewrite coerced_integer_depth by exact Hd. rewrite Eq. cbn [num_mul].
  rewrite zoom_fin.
  unfold ClipAdjustment.getState, ClipAdjustment.getWidth, ClipAdjustment.getHeight.
  cbn [Clip.width Clip.height ClipAdjustment._sin ClipAdjustment._cos
       ClipAdjustment._hyp num_mul].
  do 4 eexists. do 4 (split; [reflexivity | ]).
  split; [ | split].
  - intros G. assert (0 < IZR d) by (apply IZR_lt; exact G).
    assert (0 < q * IZR d) by (apply Rmult_lt_0_compat; assumption). split; nra.
  - intros G. assert (IZR d < 0) by (apply IZR_lt; exact G).
    assert (q * IZR d < 0) by nra. split; nra.
  - intros ->. split; ring.
Qed.

Lemma zoom_depth_sign_witness :
  (0 < parsed 400 /\ 0 < parsed 200 /\ (Z.abs 3 < 1000000000000000000000)%Z /\
   (forall m, Some 2 = Some m -> 0 <= m)) /\
  let this := run_calls [PMove 5 5]
                (ImagePlotter.new (Fin 400) (Fin 200) (Fin 100) (Fin 100) opts_cover) in
  let before := ClipAdjustment.getState (ImagePlotter._state this) in
  let after :=
    ImagePlot.canvas
      (fst (ImagePlotter.zoom (zoom_call (VNumber (Fin (IZR 3))) (Some 2)) this)) in
  exists w0 h0 w1 h1 : R,
    Clip.width before = Fin w0 /\ Clip.height before = Fin h0 /\
    Clip.width after = Fin w1 /\ Clip.height after = Fin h1 /\
    ((0 < 3)%Z -> w0 < w1 /\ h0 < h1) /\
    ((3 < 0)%Z -> w1 < w0 /\ h1 < h0) /\
    (3%Z = 0%Z -> w1 = w0 /\ h1 = h0).
Proof.
  assert (H4 : 0 < parsed 400) by (rewrite parsed_IZR by lia; lra).
  assert (H2 : 0 < parsed 200) by (rewrite parsed_IZR by lia; lra).
  assert (H3 : (Z.abs 3 < 1000000000000000000000)%Z) by lia.
  assert (Hm : forall m, Some 2 = Some m -> 0 <= m) by (intros m E; injection E as <-; lra).
  split; [repeat split; assumption | ].
  exact (zoom_depth_sign 400 200 100 100 opts_cover [PMove 5 5] 3 (Some 2) H4 H2 H3 Hm).
Defined.

(** * Zoom requests with an infinite multiplier *)

Lemma Rsign_inf_mul_zero : (PInf * Fin 0)%js = NaN.
Proof. cbn [num_mul]. apply Rsign_inf_zero. Qed.

(** The plotter for a 3 by 4 image covering a 3 by 4 canvas: the fit leaves
    the fresh adjustment as it is. *)
Lemma plotter_3_4 :
  ImagePlotter.new (Fin 3) (Fin 4) (Fin 3) (Fin 4) opts_cover =
  fin_plotter (Fin 1) 0 0 (diag 3 4) (3 / diag 3 4) (4 / diag 3 4)
              (Fin 0) (Fin 0) 3 4 (Fin 0) (Fin 0) 3 4.
Proof.
  unfold ImagePlotter.new.
  rewrite (construct_integer 3 4 3 4 opts_cover) by (try left; lia).
  cbn [wants_contain opts_cover ImagePlotter.orientation String.eqb Ascii.eqb Bool.eqb].
  unfold unfitted. rewrite cover_width_fin by (try apply sin_ratio_nonzero; lra).
  cbn [snd]. unfold fitted_to_width. rewrite set_state_fin.
  unfold fin_plotter.
  assert (diag 3 4 <> 0) by (apply Rgt_not_eq, diag_pos; left; lra).
  f_equal. f_equal; apply f_equal; field; repeat split; (assumption || lra).
Qed.

(** C10, as stated, fails for a multiplier that is not finite.  On the
    plotter for a 3 by 4 image in a 3 by 4 canvas, whose rectangle is
    [{0, 0, 3, 4}], [zoom({zoom_multiplier: Infinity})] computes the amount
    [Infinity * 0 = NaN] and returns the rectangle of four [NaN]; so does
    [zoom({})] once the field [zoom_multiplier] has been set to [Infinity]. *)
Lemma zoom_without_depth_infinite_multiplier :
  let this := ImagePlotter.new (Fin 3) (Fin 4) (Fin 3) (Fin 4) opts_cover in
  let infinite := {| ImagePlotter.zoom_depth := VUndefined;
                     ImagePlotter.opt_zoom_multiplier := Some PInf |} in
  let empty := {| ImagePlotter.zoom_depth := VUndefined;
                  ImagePlotter.opt_zoom_multiplier := None |} in
  ClipAdjustment.getState (ImagePlotter._state this) =
    Clip.new (Fin 0) (Fin 0) (Fin 3) (Fin 4) /\
  ImagePlot.canvas (fst (ImagePlotter.zoom infinite this)) = nan_clip /\
  ImagePlot.canvas
    (fst (ImagePlotter.zoom empty (ImagePlotter.set_zoom_multiplier PInf this))) = nan_clip /\
  ImagePlot.canvas (fst (ImagePlotter.zoom infinite this)) <>
    ClipAdjustment.getState (ImagePlotter._state this).
Proof.
  cbv zeta. rewrite plotter_3_4.
  assert (Hd : 0 < diag 3 4) by (apply diag_pos; left; lra).
  assert (E : ClipAdjustment.getState
                (ImagePlotter._state
                   (fin_plotter (Fin 1) 0 0 (diag 3 4) (3 / diag 3 4) (4 / diag 3 4)
                      (Fin 0) (Fin 0) 3 4 (Fin 0) (Fin 0) 3 4)) =
              Clip.new (Fin 0) (Fin 0) (Fin 3) (Fin 4)).
  { unfold fin_plotter. cbn [ImagePlotter._state].
    unfold ClipAdjustment.getState, ClipAdjustment.getX, ClipAdjustment.getY,
      ClipAdjustment.getWidth, ClipAdjustment.getHeight.
    cbn [ClipAdjustment._x ClipAdjustment._y ClipAdjustment._hyp ClipAdjustment._sin
         ClipAdjustment._cos num_mul].
    f_equal; apply f_equal; field; lra. }
  rewrite E.
  unfold ImagePlotter.zoom, ImagePlotter.set_zoom_multiplier, fin_plotter.
  cbn [ImagePlotter.zoom_depth ImagePlotter.opt_zoom_multiplier opt_or
       ImagePlotter.zoom_multiplier ImagePlotter._state ImagePlotter._image
       ImagePlotter._canvas parseInt fst ImagePlot.canvas].
  unfold num_or. cbn [num_truthy]. rewrite Rsign_inf_mul_zero.
  repeat split; try reflexivity. discriminate.
Qed.

(** * Where binary64 departs from exact arithmetic *)

Import PrimFloat.

(** [parseInt] on binary64 numbers: 1.5, -2.75 and 400 are truncated; 8e-7
    (0x1.ad7f29abcaf48p-21, a little below eight ten-millionths) prints as
    [8e-7] and reads as 8; 2e21 (0x1.b1ae4d6e2ef5p+70) prints as [2e+21] and
    reads as 2; 1e21 reads as 1 and the least positive number, [5e-324], as
    5. *)
Example binary64_parseInt :
  Binary64.parseInt 1.5%float = 1%float /\
  Binary64.parseInt (-2.75)%float = (-2)%float /\
  Binary64.parseInt 400%float = 400%float /\
  Binary64.parseInt 0x1.ad7f29abcaf48p-21%float = 8%float /\
  Binary64.parseInt 0x1.b1ae4d6e2ef5p+70%float = 2%float /\
  Binary64.parseInt 0x1.b1ae4d6e2ef5p+69%float = 1%float /\
  Binary64.parseInt 0x1p-1074%float = 5%float.
Proof. vm_compute. repeat split. Qed.

(** In binary64 too, [zoom] never writes the two ratios. *)
Lemma binary64_zooms_keep_ratios
      (amounts : list float) (s : Binary64.ClipAdjustment) :
  Binary64._sin (Binary64.zooms amounts s) = Binary64._sin s /\
  Binary64._cos (Binary64.zooms amounts s) = Binary64._cos s.
Proof.
  revert s. induction amounts as [ | a l IH]; intros s; [split; reflexivity | ].
  unfold Binary64.zooms in *. cbn [fold_left].
  destruct (IH (Binary64.zoom a s)) as [Hs Hc]. rewrite Hs, Hc.
  split; reflexivity.
Qed.

(** C7, as stated, fails in binary64.  On [new ClipAdjustment(0, 0, 1, 1)],
    whose diagonal is 1.4142135623730951, [zoom(1)] followed by [zoom(-1)]
    leaves the diagonal 1.4142135623730949 and the sides
    0.9999999999999998, while [zoom(1 + -1)] leaves the diagonal as it was
    and the sides 1. *)
Lemma zoom_additive_size_rounds :
  let s := Binary64.new 0%float 0%float 1%float 1%float in
  let s1 := Binary64.zoom (-1)%float (Binary64.zoom 1%float s) in
  let s2 := Binary64.zoom (Binary64.add 1%float (-1)%float) s in
  Binary64._hyp s1 = 0x1.6a09e667f3bccp+0%float /\
  Binary64._hyp s2 = 0x1.6a09e667f3bcdp+0%float /\
  Binary64.getWidth s1 = 0x1.ffffffffffffep-1%float /\
  Binary64.getHeight s1 = 0x1.ffffffffffffep-1%float /\
  Binary64.getWidth s2 = 1%float /\
  Binary64.getHeight s2 = 1%float /\
  Binary64.eqb (Binary64._hyp s1) (Binary64._hyp s2) = false /\
  Binary64.eqb (Binary64.getWidth s1) (Binary64.getWidth s2) = false /\
  Binary64.eqb (Binary64.getHeight s1) (Binary64.getHeight s2) = false.
Proof. vm_compute. repeat split. Qed.

(** C4, as stated, fails on the code in two ways.  Sizes that are not whole
    are truncated by [parseInt]: constructed from 1.5 by 2.5, before any
    zoom, [width()/height()] is 0.5 and not 1.5/2.5.  And the ratio is exact
    only up to rounding: constructed from 5 by 7, before any zoom, the width
    is 5.000000000000001 and [width()/height()] is 0.7142857142857144 where
    5/7 is 0.7142857142857143; constructed from 3 by 4, after [zoom(7)], it
    is not 3/4 either. *)
Lemma aspect_ratio_in_binary64 :
  let ratio s := Binary64.div (Binary64.getWidth s) (Binary64.getHeight s) in
  let nonzero s :=
    Binary64.eqb (Binary64.getWidth s) 0%float = false /\
    Binary64.eqb (Binary64.getHeight s) 0%float = false in
  let fractional := Binary64.zooms [] (Binary64.new 0%float 0%float 1.5%float 2.5%float) in
  let whole := Binary64.zooms [] (Binary64.new 0%float 0%float 5%float 7%float) in
  let zoomed := Binary64.zooms [7%float] (Binary64.new 0%float 0%float 3%float 4%float) in
  (nonzero fractional /\ ratio fractional = 0.5%float /\
   Binary64.eqb (ratio fractional) (Binary64.div 1.5%float 2.5%float) = false) /\
  (nonzero whole /\ Binary64.getWidth whole = 0x1.4000000000001p+2%float /\
   ratio whole = 0x1.6db6db6db6db8p-1%float /\
   Binary64.div 5%float 7%float = 0x1.6db6db6db6db7p-1%float /\
   Binary64.eqb (ratio whole) (Binary64.div 5%float 7%float) = false) /\
  (nonzero zoomed /\
   Binary64.eqb (ratio zoomed) (Binary64.div 3%float 4%float) = false).
Proof. vm_compute. repeat split. Qed.
